(** * Interference-visibility bench: the processing core of [data_elab.py]

    A shallow embedding of [src/InterferenceVisibility/data_elab.py]:
    the waveform segmenter ([chunk_array] and the dropped first chunk),
    the peak selector and the Gaussian sub-window of
    [interference_voltage_estimation], the amplitude aggregate, the
    settle-wait loop [set_and_wait], and the reporting part of [main].

    Python floats and numpy float64 values are Rocq's primitive binary64
    floats, so every arithmetic step and every comparison (NaN included)
    evaluates as it does in the interpreter.  Python ints are [Z].
    Exceptions are the [Raise] branch of [result].  The two calls into
    [scipy.optimize.curve_fit] are parameters of the model: a fit either
    returns its optimum or raises. *)

From Stdlib Require Import ZArith List Bool Lia Floats.
From Stdlib Require Import QArith Qround Qpower.
From Stdlib Require Import Sorting.Permutation Sorting.Sorted.
From Stdlib Require Strings.Byte.
Import ListNotations.
Close Scope Q_scope.
Close Scope float_scope.
Open Scope nat_scope.

Set Implicit Arguments.

(** ** Exceptions and fallible computations *)

Inductive exn : Type :=
| ValueError
| OverflowError
| ZeroDivisionError
| RuntimeError.

Inductive result (A : Type) : Type :=
| Ok (a : A)
| Raise (e : exn).

Arguments Ok {A} a.
Arguments Raise {A} e.

Definition bind {A B : Type} (c : result A) (k : A -> result B) : result B :=
  match c with
  | Ok a => k a
  | Raise e => Raise e
  end.

Notation "x <- c ;; k" := (bind c (fun x => k))
  (at level 61, c at next level, right associativity).

(** ** Python built-ins used by the program *)

Module Py.

(** [l[lo:hi]] for [0 <= lo]. *)
Definition slice {A : Type} (l : list A) (lo hi : nat) : list A :=
  firstn (hi - lo) (skipn lo l).

(** [range(i, stop, step)] for a positive [step]; at most [fuel]
    elements are produced. *)
Fixpoint range_from (fuel i stop step : nat) : list nat :=
  match fuel with
  | O => []
  | S fuel' =>
      if i <? stop then i :: range_from fuel' (i + step) stop step else []
  end.

(** [range(0, stop, step)]: a zero step raises, a negative step gives the
    empty range, and a positive one has at most [stop] elements. *)
Definition range0 (stop : nat) (step : Z) : result (list nat) :=
  if (step =? 0)%Z then Raise ValueError
  else if (step <? 0)%Z then Ok []
  else Ok (range_from stop 0 stop (Z.to_nat step)).

(** The float nearest to an integer (ties to even), infinite when the
    integer is beyond the binary64 range. *)
Definition nearest_float (z : Z) : float :=
  SF2Prim (binary_normalize prec emax z 0 false).

(** [float(z)] for an int: an int beyond the float range raises. *)
Definition float_of_int (z : Z) : result float :=
  let f := nearest_float z in
  if is_infinity f then Raise OverflowError else Ok f.

(** [int(f)] for a float: truncation toward zero; NaN and the infinities
    raise. *)
Definition int_of_float (f : float) : result Z :=
  match Prim2SF f with
  | S754_zero _ => Ok 0%Z
  | S754_finite s m e =>
      let a := Z.shiftl (Zpos m) e in
      Ok (if s then (- a)%Z else a)
  | S754_infinity _ => Raise OverflowError
  | S754_nan => Raise ValueError
  end.

(** [f // 2] for a float: the floor of the exact half, which is a float
    again; a zero keeps its sign, NaN and the infinities give NaN. *)
Definition float_floordiv2 (f : float) : float :=
  match Prim2SF f with
  | S754_zero _ => f
  | S754_finite s m e =>
      nearest_float (Z.shiftl (if s then Zneg m else Zpos m) (e - 1))
  | S754_infinity _ | S754_nan => nan
  end.

(** [a / b] on floats: a zero divisor raises. *)
Definition truediv (a b : float) : result float :=
  if (b =? 0)%float then Raise ZeroDivisionError else Ok (a / b)%float.

(** A number as [json.load] gives it: an int or a float. *)
Inductive num : Type :=
| PInt (z : Z)
| PFloat (f : float).

Definition to_float (x : num) : result float :=
  match x with
  | PInt z => float_of_int z
  | PFloat f => Ok f
  end.

(** [x * y]: exact on two ints, the float product otherwise. *)
Definition mul (x y : num) : result num :=
  match x, y with
  | PInt a, PInt b => Ok (PInt (a * b))
  | _, _ =>
      a <- to_float x ;;
      b <- to_float y ;;
      Ok (PFloat (a * b)%float)
  end.

(** [x // 2]. *)
Definition floordiv2 (x : num) : num :=
  match x with
  | PInt a => PInt (a / 2)
  | PFloat f => PFloat (float_floordiv2 f)
  end.

(** [int(x)]. *)
Definition int (x : num) : result Z :=
  match x with
  | PInt a => Ok a
  | PFloat f => int_of_float f
  end.

(** [max(a, b)] on two floats: the first argument unless the second
    compares greater. *)
Definition max2 (a b : float) : float :=
  if (a <? b)%float then b else a.

(** [max(l)] and [min(l)] on a list: the running extremum is replaced
    when an item compares strictly beyond it; an empty list raises. *)
Definition max (l : list float) : result float :=
  match l with
  | [] => Raise ValueError
  | x :: l' => Ok (fold_left (fun m y => if (m <? y)%float then y else m) l' x)
  end.

Definition min (l : list float) : result float :=
  match l with
  | [] => Raise ValueError
  | x :: l' => Ok (fold_left (fun m y => if (y <? m)%float then y else m) l' x)
  end.

(** Stable insertion of [a] into an ascending list: [a] goes before the
    first element it is strictly less than. *)
Fixpoint insert_by {A : Type} (lt : A -> A -> bool) (a : A) (l : list A) : list A :=
  match l with
  | [] => [a]
  | b :: l' => if lt a b then a :: b :: l' else b :: insert_by lt a l'
  end.

(** [sorted(l, key=...)]: stable, ascending, comparing with [<] only.  The
    keys sorted by the program are ints and non-NaN floats, on which a
    stable sort has one possible result. *)
Definition sorted {A : Type} (lt : A -> A -> bool) (l : list A) : list A :=
  fold_left (fun acc a => insert_by lt a acc) l [].

(** [sorted(l, key=..., reverse=True)]: the list is reversed, sorted
    ascending and reversed again, so equal keys keep their order. *)
Definition sorted_reverse {A : Type} (lt : A -> A -> bool) (l : list A) : list A :=
  rev (sorted lt (rev l)).

End Py.

(** ** numpy and scipy functions used by the program *)

Module Np.

(** [x[i]] on a float array; the default is never reached where the
    program indexes. *)
Definition get (x : list float) (i : nat) : float := nth i x nan.

(** [np.arange(low, high, dtype=float)] for ints [low <= high]. *)
Definition arange (low high : Z) : list float :=
  map (fun k => Py.nearest_float (low + Z.of_nat k))
      (seq 0 (Z.to_nat (high - low))).

(** [np.max] and [np.min]: a NaN anywhere gives NaN; an empty array
    raises.  Two operands that compare equal differ at most as zeros of
    opposite sign; which of the two numpy returns then depends on the
    vector loop of the build, and the model keeps the first.  Nothing
    below is stated on the sign of a zero maximum or minimum. *)
Definition maximum (a b : float) : float :=
  if is_nan a then a else if is_nan b then b
  else if (a <? b)%float then b else a.

Definition minimum (a b : float) : float :=
  if is_nan a then a else if is_nan b then b
  else if (b <? a)%float then b else a.

Definition max (x : list float) : result float :=
  match x with
  | [] => Raise ValueError
  | a :: x' => Ok (fold_left maximum x' a)
  end.

Definition min (x : list float) : result float :=
  match x with
  | [] => Raise ValueError
  | a :: x' => Ok (fold_left minimum x' a)
  end.

(** numpy's summation of a float array.  Fewer than eight addends are
    added in order.  Up to 128 addends are added into eight running sums,
    one per position in the successive blocks of eight; the eight sums are
    added pairwise and the addends left over are added in order.  A longer
    array is split near its middle, at a multiple of eight, and the sums
    of the two parts are added. *)
Definition add8 (r block : list float) : list float :=
  map (fun rb => (fst rb + snd rb)%float) (combine r block).

Definition block_sum (a : list float) : float :=
  let n := length a in
  let full := n - n mod 8 in
  let r :=
    fold_left (fun r i => add8 r (Py.slice a i (i + 8)))
              (Py.range_from n 8 full 8) (firstn 8 a) in
  let res :=
    match r with
    | [r0; r1; r2; r3; r4; r5; r6; r7] =>
        (((r0 + r1) + (r2 + r3)) + ((r4 + r5) + (r6 + r7)))%float
    | _ => nan
    end in
  fold_left add (skipn full a) res.

Fixpoint pairwise_sum (fuel : nat) (a : list float) : float :=
  let n := length a in
  if n <? 8 then fold_left add a neg_zero
  else if n <=? 128 then block_sum a
  else
    match fuel with
    | O => block_sum a
    | S fuel' =>
        let n2 := n / 2 - (n / 2) mod 8 in
        (pairwise_sum fuel' (firstn n2 a) + pairwise_sum fuel' (skipn n2 a))%float
    end.

(** [np.sum]: the reduction starts from the identity [0.0], to which the
    sum of the array is added. *)
Definition sum (x : list float) : float :=
  (0 + pairwise_sum (length x) x)%float.

Definition size (x : list float) : float :=
  Py.nearest_float (Z.of_nat (length x)).

(** [np.mean(x)]: the sum over the count. *)
Definition mean (x : list float) : float :=
  (sum x / size x)%float.

(** [np.std(x)] with its default [ddof=0]: the square root of the mean
    of the squared deviations from the mean. *)
Definition std (x : list float) : float :=
  let m := mean x in
  let dev := map (fun v => (v - m)%float) x in
  sqrt (sum (map (fun v => (v * v)%float) dev) / size x)%float.

(** [np.pi]. *)
Definition pi : float := 0x1.921fb54442d18p+1%float.

(** scipy's local-maximum search behind [find_peaks(x)]: from [i_ahead]
    the end of the plateau of samples equal to [xi] is looked for. *)
Fixpoint plateau_end (fuel : nat) (x : list float) (xi : float)
         (i_ahead i_max : nat) : nat :=
  match fuel with
  | O => i_ahead
  | S fuel' =>
      if (i_ahead <? i_max) && (get x i_ahead =? xi)%float
      then plateau_end fuel' x xi (S i_ahead) i_max
      else i_ahead
  end.

(** A sample that rises from its left neighbour starts a candidate
    plateau; when the sample after the plateau is lower, the middle of
    the plateau (rounded down) is a peak and the scan resumes after it. *)
Fixpoint local_maxima_from (fuel : nat) (x : list float) (i i_max : nat)
  : list nat :=
  match fuel with
  | O => []
  | S fuel' =>
      if i <? i_max then
        if (get x (i - 1) <? get x i)%float then
          let i_ahead := plateau_end (length x) x (get x i) (i + 1) i_max in
          if (get x i_ahead <? get x i)%float
          then (i + (i_ahead - 1)) / 2
               :: local_maxima_from fuel' x (i_ahead + 1) i_max
          else local_maxima_from fuel' x (i + 1) i_max
        else local_maxima_from fuel' x (i + 1) i_max
      else []
  end.

(** [find_peaks(x)[0]] with no condition given: the local maxima in
    ascending position; the first and the last sample are never one. *)
Definition find_peaks (x : list float) : list nat :=
  local_maxima_from (length x) x 1 (length x - 1).

End Np.

(** ** [data_elab.py] *)

(** [chunk_array(arr, size)]:
    [[arr[i:i + size] for i in range(0, len(arr), size)]]. *)
Definition chunk_array {A : Type} (arr : list A) (size : Z) : result (list (list A)) :=
  idxs <- Py.range0 (length arr) size ;;
  Ok (map (fun i => Py.slice arr i (i + Z.to_nat size)) idxs).

(** The windows of one acquisition: [chunk_array(voltages, sampling_period)[1:]]. *)
Definition windows {A : Type} (voltages : list A) (sampling_period : Z)
  : result (list (list A)) :=
  chunks <- chunk_array voltages sampling_period ;;
  Ok (tl chunks).

(** The settings read by the processing core: [SETTINGS["sampling_rate"]],
    [SETTINGS["period"]] and [SETTINGS["delay"]]. *)
Record Settings : Type := {
  sampling_rate : Py.num;
  period : Py.num;
  delay : Py.num
}.

(** [sampling_period = int(SETTINGS["period"] * sampling_rate)], refused
    when it is not positive. *)
Definition sampling_period (st : Settings) : result Z :=
  p <- Py.mul (period st) (sampling_rate st) ;;
  n <- Py.int p ;;
  if (n <=? 0)%Z then Raise ValueError else Ok n.

(** [int((delay * sampling_rate) // 2)], before the lower bound is applied. *)
Definition half_delay (st : Settings) : result Z :=
  p <- Py.mul (delay st) (sampling_rate st) ;;
  Py.int (Py.floordiv2 p).

(** [delay_samples]: the half width of the Gaussian sub-window, raised to
    one when it is smaller. *)
Definition delay_samples (st : Settings) : result Z :=
  d <- half_delay st ;;
  Ok (if (d <? 1)%Z then 1%Z else d).

(** A candidate peak [[index_in_chunk, height]]. *)
Definition peak : Type := (Z * float)%type.

Definition height_lt (a b : peak) : bool := (snd a <? snd b)%float.
Definition position_lt (a b : peak) : bool := (fst a <? fst b)%Z.

(** [arr] before it is sorted: the peaks found in the chunk, each with the
    sample at its index. *)
Definition candidates (chunk : list float) : list peak :=
  map (fun p => (Z.of_nat p, Np.get chunk p)) (Np.find_peaks chunk).

(** [arr[i][0]]; the default is never reached where the program indexes. *)
Definition index_at (arr : list peak) (i : nat) : Z :=
  fst (nth i arr (0%Z, nan)).

(** The choice of [interference_peak_index] from the candidates sorted by
    height, highest first: the highest one when there are fewer than
    three, otherwise the middle by position of the three highest. *)
Definition select_index (arr : list peak) : Z :=
  if length arr <? 3 then
    if length arr =? 1 then index_at arr 0 else index_at arr 0
  else
    let top3_by_height := firstn 3 arr in
    let top3_sorted_by_pos := Py.sorted position_lt top3_by_height in
    index_at top3_sorted_by_pos 1.

(** The peak selector of one chunk: [None] when [find_peaks] finds no
    peak and the chunk is skipped. *)
Definition interference_peak_index (chunk : list float) : option Z :=
  match Np.find_peaks chunk with
  | [] => None
  | _ :: _ => Some (select_index (Py.sorted_reverse height_lt (candidates chunk)))
  end.

(** The sub-window [[low, high)] around the selected index, or [None] when
    the chunk is left before any fit: it is empty, has no peak, or the
    sub-window has fewer than three samples. *)
Definition fit_window (delay_samples : Z) (chunk : list float) : option (Z * Z * Z) :=
  if length chunk =? 0 then None
  else
    match interference_peak_index chunk with
    | None => None
    | Some idx =>
        let low := Z.max 0 (idx - delay_samples) in
        let high := Z.min (Z.of_nat (length chunk)) (idx + delay_samples) in
        if (high - low <? 3)%Z then None else Some (low, idx, high)
    end.

(** The arguments of one Gaussian [curve_fit] call: [xs], [ys] and the
    initial guess [p0 = [A0, mu0, sigma0]]. *)
Record gaussian_fit_call : Type := {
  xs : list float;
  ys : list float;
  p0 : float * float * float
}.

Definition gaussian_fit : Type :=
  gaussian_fit_call -> result (float * float * float).

Definition fit_call (chunk : list float) (low idx high : Z) : result gaussian_fit_call :=
  let ys := Py.slice chunk (Z.to_nat low) (Z.to_nat high) in
  A0 <- Np.max ys ;;
  let mu0 := Py.nearest_float idx in
  let sigma0 := Py.max2 1 (Py.nearest_float (high - low) / 6)%float in
  Ok {| xs := Np.arange low high; ys := ys; p0 := (A0, mu0, sigma0) |}.

(** One pass of the loop over the chunks: the amplitude appended to
    [heights], or [None] when the chunk contributes nothing.  Every
    exception of the fit is caught and skips the chunk; the initial guess
    is computed before the [try].  The debug plot comes after the append
    and changes nothing in [heights]. *)
Definition chunk_height (curve_fit : gaussian_fit) (delay_samples : Z)
           (chunk : list float) : result (option float) :=
  match fit_window delay_samples chunk with
  | None => Ok None
  | Some (low, idx, high) =>
      call <- fit_call chunk low idx high ;;
      match curve_fit call with
      | Ok (A, mu, sigma) => Ok (Some A)
      | Raise _ => Ok None
      end
  end.

(** The loop over the chunks, from the [heights] collected so far. *)
Fixpoint chunk_heights (curve_fit : gaussian_fit) (delay_samples : Z)
         (chunks : list (list float)) (heights : list float) : result (list float) :=
  match chunks with
  | [] => Ok heights
  | chunk :: rest =>
      h <- chunk_height curve_fit delay_samples chunk ;;
      chunk_heights curve_fit delay_samples rest
        match h with
        | Some A => heights ++ [A]
        | None => heights
        end
  end.

(** The end of [interference_voltage_estimation]: NaN for both when no
    amplitude was collected, the mean and the standard deviation
    otherwise. *)
Definition aggregate (heights : list float) : float * float :=
  if length heights =? 0 then (nan, nan)
  else (Np.mean heights, Np.std heights).

(** [interference_voltage_estimation], on the trace [osc.readVolt()[0]]. *)
Definition interference_voltage_estimation (curve_fit : gaussian_fit)
           (st : Settings) (voltages : list float) : result (float * float) :=
  n <- sampling_period st ;;
  chunks <- windows voltages n ;;
  d <- delay_samples st ;;
  heights <- chunk_heights curve_fit d chunks [] ;;
  Ok (aggregate heights).

(** *** [set_and_wait]

    The thermal controller is the sequence of its answers to
    [read_temperature]: [poll k] is the k-th reading after the setpoint
    was written.  Both loops are run on fuel; [None] is a run that has not
    returned within it. *)

Definition out_of_tolerance (target tolerance reading : float) : bool :=
  (tolerance <? abs (reading - target))%float.

(** The inner loop, entered before reading number [i]: an out-of-tolerance
    reading puts [count] back to zero and polls again.  The result is the
    number of readings taken so far and [count] when the loop is left. *)
Fixpoint wait_in_tolerance (fuel : nat) (poll : nat -> float)
         (target tolerance : float) (i count : nat) : option (nat * nat) :=
  match fuel with
  | O => None
  | S fuel' =>
      if out_of_tolerance target tolerance (poll i)
      then wait_in_tolerance fuel' poll target tolerance (S i) 0
      else Some (S i, count)
  end.

(** The outer loop [while count < 3]; the result is the number of readings
    taken when the function returns. *)
Fixpoint settle_loop (fuel : nat) (poll : nat -> float)
         (target tolerance : float) (i count : nat) : option nat :=
  if count <? 3 then
    match fuel with
    | O => None
    | S fuel' =>
        match wait_in_tolerance fuel poll target tolerance i count with
        | None => None
        | Some (i', count') =>
            settle_loop fuel' poll target tolerance i' (count' + 1)
        end
    end
  else Some i.

Definition set_and_wait (fuel : nat) (poll : nat -> float)
           (target tolerance : float) : option nat :=
  settle_loop fuel poll target tolerance 0 0.

(** *** [main]: the visibility of a stored sweep *)

(** [data["data"]] as [main] reads it: one array per field. *)
Record Sweep : Type := {
  temperature : list float;
  mean : list float;
  std : list float
}.

Definition cos2_params : Type := (float * float * float * float)%type.

(** The arguments of the cos² [curve_fit] call. *)
Record cos2_fit_call : Type := {
  guess : cos2_params;
  temps_arr : list float;
  means_arr : list float
}.

Definition cos2_fit : Type := cos2_fit_call -> result cos2_params.

(** [initial_guess(x, y)]. *)
Definition initial_guess (x y : list float) : result cos2_params :=
  if length x =? 0 then Ok (0, 1, 1, 0)%float
  else
    ymin <- Np.min y ;;
    ymax <- Np.max y ;;
    xmax <- Np.max x ;;
    xmin <- Np.min x ;;
    let A := ymin in
    let B := (ymax - ymin)%float in
    let span := (xmax - xmin)%float in
    let k := if (span =? 0)%float then 1%float else (2 * Np.pi / span)%float in
    Ok (A, B, k, 0%float).

(** What goes into the cos² fit: the stored arrays as they are. *)
Definition fit_inputs (temps means : list float) : result cos2_fit_call :=
  g <- initial_guess temps means ;;
  Ok {| guess := g; temps_arr := temps; means_arr := means |}.

(** [visibility = B / (2 * A + B) if (2 * A + B) != 0 else float("nan")]. *)
Definition visibility (popt : cos2_params) : float :=
  let '(A, B, k, phi) := popt in
  if negb (2 * A + B =? 0)%float then (B / (2 * A + B))%float else nan.

(** [raw = (M - m) / (M + m)] with [M, m = max(means), min(means)]. *)
Definition raw_visibility (means : list float) : result float :=
  M <- Py.max means ;;
  m <- Py.min means ;;
  Py.truediv (M - m) (M + m).

(** The lines [main] prints. *)
Inductive line : Type :=
| NoValidData
| FittedVisibility (v : float)
| RawVisibility (raw : float)
| FitFailed (e : exn).

(** The [try] block of [main] with its handler: the lines printed. *)
Definition fit_and_report (curve_fit : cos2_fit) (temps means : list float) : list line :=
  match (call <- fit_inputs temps means ;; curve_fit call) with
  | Raise e => [FitFailed e]
  | Ok popt =>
      FittedVisibility (visibility popt) ::
      match raw_visibility means with
      | Ok raw => [RawVisibility raw]
      | Raise e => [FitFailed e]
      end
  end.

(** [plt.scatter(temps, means, ...)]: two arrays of different sizes
    raise. *)
Definition scatter (x y : list float) : result unit :=
  if length x =? length y then Ok tt else Raise ValueError.

(** The calls between [plt.scatter] and the [try]: [plt.errorbar] on the
    stored arrays, with the stored deviations as error bars, and
    [np.linspace]; what they do is the library's. *)
Definition pyplot : Type := Sweep -> result unit.

(** [main] from the point where the stored sweep has been read: the lines
    printed, or the exception of a plotting call made before the [try],
    which leaves [main] with nothing printed. *)
Definition main (errorbar : pyplot) (curve_fit : cos2_fit) (bha : Sweep)
  : result (list line) :=
  let temps := temperature bha in
  let means := mean bha in
  if length temps =? 0 then Ok [NoValidData]
  else
    _ <- scatter temps means ;;
    _ <- errorbar bha ;;
    Ok (fit_and_report curve_fit temps means).

(** ** [devices/OscilloscopeDPO70k.py]: from the raw response to volts

    [readVolt_bin], [readVolt_int] and [readVolt] after the exchange with
    the instrument: [data] is the response to [CURVE?] as [read_raw]
    returned it, [nchan] is [self._nchan], [memory] is [self._memory], and
    the scale is the [ymult], [yzero] and [yoff] in force. *)

Module Osc.

(** An int as an unrounded binary number. *)
Definition int_to_SF (z : Z) : spec_float :=
  match z with
  | Z0 => S754_zero false
  | Zpos p => S754_finite false p 0
  | Zneg p => S754_finite true p 0
  end.

(** [a / b] on two ints: the float nearest to the exact quotient; a zero
    divisor raises, and so does a quotient beyond the float range. *)
Definition truediv_int (a b : Z) : result float :=
  if (b =? 0)%Z then Raise ZeroDivisionError
  else
    let q := SF2Prim (SFdiv prec emax (int_to_SF a) (int_to_SF b)) in
    if is_infinity q then Raise OverflowError else Ok q.

(** A slice bound on a sequence of [len] items: a negative bound counts
    from the end, and every bound is clipped to the sequence. *)
Definition clip (len i : Z) : Z :=
  if (i <? 0)%Z then Z.max 0 (i + len) else Z.min i len.

(** [l[a:b]] for any two ints. *)
Definition slice_int {A : Type} (l : list A) (a b : Z) : list A :=
  let len := Z.of_nat (length l) in
  Py.slice l (Z.to_nat (clip len a)) (Z.to_nat (clip len b)).

(** [sourceHeaderLen]. *)
Definition source_header_len (nchan : nat) (memory : Z) (data : list Byte.byte)
  : result Z :=
  let endTxLen := 1%Z in
  q <- truediv_int (Z.of_nat (length data) - Z.of_nat nchan * memory - endTxLen)
                   (Z.of_nat nchan) ;;
  Py.int_of_float q.

(** [readVolt_bin]: one slice of the response per channel. *)
Definition readVolt_bin (nchan : nat) (memory : Z) (data : list Byte.byte)
  : result (list (list Byte.byte)) :=
  sourceHeaderLen <- source_header_len nchan memory data ;;
  Ok (map (fun k =>
             let i := Z.of_nat k in
             slice_int data
               ((i + 1) * sourceHeaderLen + i * memory)
               ((i + 1) * sourceHeaderLen + (i + 1) * memory))
          (seq 0 nchan)).

(** One byte read as a signed char, the format ['b'] of [unpack]. *)
Definition int8 (b : Byte.byte) : Z :=
  let n := Z.of_N (Byte.to_N b) in
  if (n <? 128)%Z then n else (n - 256)%Z.

(** [readVolt_int]. *)
Definition readVolt_int (nchan : nat) (memory : Z) (data : list Byte.byte)
  : result (list (list Z)) :=
  datas <- readVolt_bin nchan memory data ;;
  Ok (map (map int8) datas).

Record Scale : Type := {
  ymult : float;
  yzero : float;
  yoff : float
}.

(** [(v - self.yoff) * self.ymult + self.yzero] on one sample. *)
Definition to_volts (sc : Scale) (v : Z) : float :=
  ((Py.nearest_float v - yoff sc) * ymult sc + yzero sc)%float.

(** [readVolt]. *)
Definition readVolt (sc : Scale) (nchan : nat) (memory : Z) (data : list Byte.byte)
  : result (list (list float)) :=
  datas <- readVolt_int nchan memory data ;;
  Ok (map (map (to_volts sc)) datas).

End Osc.

(** ** [devices/TEC1092.py]: the wrapper of the thermal controller

    The wrapper holds a session and the address the controller identified
    itself with; both are absent until [connect] and after [close].  The
    controller is what it answers: the outcome of opening the serial port,
    of [identify] and of [stop], and the answer to a [get_parameter]
    request, each of which may raise. *)

Module Tec.

Inductive MeComSerial : Type := serial_session.

Record TEC1092 : Type := {
  session : option MeComSerial;
  address : option Z
}.

Record Device : Type := {
  open_port : result MeComSerial;
  identify : result Z;
  stop : result unit
}.

(** The wrapper as [__init__] leaves it before any [connect]. *)
Definition disconnected : TEC1092 := {| session := None; address := None |}.

(** [connect]: the new state and the address returned, or the exception. *)
Definition connect (dev : Device) (st : TEC1092) : TEC1092 * result (option Z) :=
  match session st with
  | None =>
      match open_port dev with
      | Raise e => (st, Raise e)
      | Ok s =>
          let st1 := {| session := Some s; address := address st |} in
          match identify dev with
          | Raise e => (st1, Raise e)
          | Ok a => ({| session := Some s; address := Some a |}, Ok (Some a))
          end
      end
  | Some _ => (st, Ok (address st))
  end.

(** [close]: the [finally] clause clears the state whether [stop] raised
    or not, and the exception of [stop] goes on to the caller. *)
Definition close (dev : Device) (st : TEC1092) : TEC1092 * result unit :=
  match session st with
  | Some _ => (disconnected, stop dev)
  | None => (st, Ok tt)
  end.

Definition _ensure (st : TEC1092) : result unit :=
  match session st, address st with
  | Some _, Some _ => Ok tt
  | _, _ => Raise RuntimeError
  end.

(** [_get], [reply] being the outcome of the [get_parameter] request. *)
Definition _get (st : TEC1092) (reply : result float) : result float :=
  _ <- _ensure st ;;
  reply.

(** [read_temperature] and [read_setpoint]: [float] leaves the number the
    controller answered as it is. *)
Definition read_temperature (st : TEC1092) (reply : result float) : result float :=
  _get st reply.

Definition read_setpoint (st : TEC1092) (reply : result float) : result float :=
  _get st reply.

(** [abs(T - target) <= tolerance]. *)
Definition within_tolerance (target tolerance T : float) : bool :=
  (abs (T - target) <=? tolerance)%float.

(** The loop of [wait_until_stable], entered before reading number [i]:
    [now k] is the k-th value of [time.time()], the first one having set
    the deadline, [temperature i] is the outcome of the i-th request for
    the temperature, and [sleep poll] is what [time.sleep(poll)] does,
    which raises on a length it does not take.  The loop is run on fuel;
    [None] is a run that has not returned within it. *)
Fixpoint poll_until (fuel : nat) (st : TEC1092) (now : nat -> float)
         (sleep : float -> result unit) (temperature : nat -> result float)
         (target deadline tolerance poll : float) (i : nat)
  : option (result bool) :=
  match fuel with
  | O => None
  | S fuel' =>
      if (now (S i) <? deadline)%float then
        match read_temperature st (temperature i) with
        | Raise e => Some (Raise e)
        | Ok T =>
            if within_tolerance target tolerance T then Some (Ok true)
            else
              match sleep poll with
              | Raise e => Some (Raise e)
              | Ok _ =>
                  poll_until fuel' st now sleep temperature
                             target deadline tolerance poll (S i)
              end
        end
      else Some (Ok false)
  end.

Definition wait_until_stable (fuel : nat) (st : TEC1092) (now : nat -> float)
           (sleep : float -> result unit)
           (setpoint : result float) (temperature : nat -> result float)
           (tolerance timeout poll : float) : option (result bool) :=
  match read_setpoint st setpoint with
  | Raise e => Some (Raise e)
  | Ok target =>
      poll_until fuel st now sleep temperature
                 target (now 0%nat + timeout)%float tolerance poll 0%nat
  end.

End Tec.

(** ** [devices/OscilloscopeDPO70k.py]: connecting and disconnecting

    The object and the instrument behind it.  A command is what [write]
    or [query] is called with; the instrument is what it does with a
    command, given the commands that went through before: a [write]
    passes or raises, a [query] gives the number [float] makes of the
    reply, or raises.  The resource keeps the commands that went through
    without an exception and whether it is still open. *)

Module Scope.

Inductive command : Type :=
| DATA_SOU (chans : list Z)
| DATA_WIDTH_1
| DATA_ENC_FAS
| DATA_START_1
| DATA_STOP (memory : Z)
| WFMPRE_YMULT
| WFMPRE_YZERO
| WFMPRE_YOFF
| WFMPRE_XINCR
| HORIZONTAL_MAIN_SCALE
| HORIZONTAL_MAIN_POSITION
| HORIZONTAL_RECORDLENGTH.

Record Instrument : Type := {
  on_write : list command -> command -> result unit;
  on_query : list command -> command -> result float
}.

Record Resource : Type := {
  sent : list command;
  is_open : bool
}.

(** The attributes that hold the scale of the two axes. *)
Inductive attr : Type :=
| ymult | yzero | yoff | xincr | xscale | xoffset | xlength.

Definition attr_eqb (a b : attr) : bool :=
  match a, b with
  | ymult, ymult | yzero, yzero | yoff, yoff | xincr, xincr
  | xscale, xscale | xoffset, xoffset | xlength, xlength => true
  | _, _ => false
  end.

Record Oscilloscope : Type := {
  _scope : option Resource;
  _nchan : nat;
  _memory : Z;
  _is_connected : bool;
  scale : attr -> option float
}.

(** What ends a call early: an exception of the instrument or of [float],
    the missing [_scope] attribute, or the [Exception] of
    [change_channels] with the channel it names. *)
Inductive failure : Type :=
| Raised (e : exn)
| AttributeError
| InvalidChannel (chan : Z).

(** A method: from the object before the call to the object after it and
    what the call returned or raised. *)
Definition method (A : Type) : Type := Oscilloscope -> Oscilloscope * (A + failure).

Definition ret {A : Type} (a : A) : method A := fun s => (s, inl a).

Definition raise {A : Type} (f : failure) : method A := fun s => (s, inr f).

Definition and_then {A B : Type} (m : method A) (k : A -> method B) : method B :=
  fun s =>
    match m s with
    | (s', inl a) => k a s'
    | (s', inr f) => (s', inr f)
    end.

Notation "m1 >> m2" := (and_then m1 (fun _ => m2))
  (at level 62, right associativity).

Definition set_scope (r : Resource) : method unit :=
  fun s => ({| _scope := Some r; _nchan := _nchan s; _memory := _memory s;
               _is_connected := _is_connected s; scale := scale s |}, inl tt).

Definition set_nchan (n : nat) : method unit :=
  fun s => ({| _scope := _scope s; _nchan := n; _memory := _memory s;
               _is_connected := _is_connected s; scale := scale s |}, inl tt).

Definition set_memory (m : Z) : method unit :=
  fun s => ({| _scope := _scope s; _nchan := _nchan s; _memory := m;
               _is_connected := _is_connected s; scale := scale s |}, inl tt).

Definition set_is_connected (b : bool) : method unit :=
  fun s => ({| _scope := _scope s; _nchan := _nchan s; _memory := _memory s;
               _is_connected := b; scale := scale s |}, inl tt).

Definition set_scale (a : attr) (v : float) : method unit :=
  fun s => ({| _scope := _scope s; _nchan := _nchan s; _memory := _memory s;
               _is_connected := _is_connected s;
               scale := fun b => if attr_eqb a b then Some v else scale s b |},
            inl tt).

(** [self._scope.write(cmd)]. *)
Definition write (io : Instrument) (cmd : command) : method unit :=
  fun s =>
    match _scope s with
    | None => (s, inr AttributeError)
    | Some r =>
        match on_write io (sent r) cmd with
        | Raise e => (s, inr (Raised e))
        | Ok _ => set_scope {| sent := sent r ++ [cmd]; is_open := is_open r |} s
        end
    end.

(** [self.a = float(self._scope.query(cmd))]. *)
Definition query_into (io : Instrument) (a : attr) (cmd : command) : method unit :=
  fun s =>
    match _scope s with
    | None => (s, inr AttributeError)
    | Some r =>
        match on_query io (sent r) cmd with
        | Raise e => (s, inr (Raised e))
        | Ok v =>
            (set_scope {| sent := sent r ++ [cmd]; is_open := is_open r |}
             >> set_scale a v) s
        end
    end.

(** The seven queries [connect] and [change_channels] both make. *)
Definition read_scales (io : Instrument) : method unit :=
  query_into io ymult WFMPRE_YMULT >>
  query_into io yzero WFMPRE_YZERO >>
  query_into io yoff WFMPRE_YOFF >>
  query_into io xincr WFMPRE_XINCR >>
  query_into io xscale HORIZONTAL_MAIN_SCALE >>
  query_into io xoffset HORIZONTAL_MAIN_POSITION >>
  query_into io xlength HORIZONTAL_RECORDLENGTH.

(** The first loop of [change_channels]. *)
Fixpoint check_channels (chan_to_activate : list Z) : method unit :=
  match chan_to_activate with
  | [] => ret tt
  | chan :: rest =>
      if (chan <=? 0)%Z then raise (InvalidChannel chan) else check_channels rest
  end.

Definition change_channels (io : Instrument) (chan_to_activate : list Z) : method unit :=
  check_channels chan_to_activate >>
  set_nchan (length chan_to_activate) >>
  write io (DATA_SOU chan_to_activate) >>
  read_scales io.

(** [connect] called with an address, the branch [else] of its first
    test: [open_resource] is what opening the address gave.  A resource
    that cannot be opened is reported on the screen and the call
    returns.  The search through [list_resources] that a call without an
    address makes is not part of this function. *)
Definition connect (io : Instrument) (open_resource : result unit)
           (active_channels : list Z) (memory : Z) : method unit :=
  match open_resource with
  | Raise _ => ret tt
  | Ok _ =>
      set_scope {| sent := []; is_open := true |} >>
      set_nchan (length active_channels) >>
      set_memory memory >>
      write io (DATA_SOU active_channels) >>
      write io DATA_WIDTH_1 >>
      write io DATA_ENC_FAS >>
      read_scales io >>
      write io DATA_START_1 >>
      and_then (fun s => (s, inl (_memory s)))
               (fun m => write io (DATA_STOP m)) >>
      change_channels io active_channels >>
      set_is_connected true
  end.

(** The object [__init__] leaves when it is not asked to connect. *)
Definition init (active_channels : list Z) (memory : Z) : Oscilloscope :=
  {| _scope := None; _nchan := length active_channels; _memory := memory;
     _is_connected := false; scale := fun _ => None |}.

(** [disconnect]; [close] is taken not to raise. *)
Definition disconnect : method unit :=
  fun s =>
    if _is_connected s then
      match _scope s with
      | None => (s, inr AttributeError)
      | Some r =>
          (set_scope {| sent := sent r; is_open := false |}
           >> set_is_connected false) s
      end
    else (s, inl tt).

End Scope.

(** ** Vocabulary of the statements *)

(** No later element is strictly below an earlier one. *)
Definition ascending {A : Type} (lt : A -> A -> bool) (l : list A) : Prop :=
  StronglySorted (fun a b => lt b a = false) l.

(** No later element is strictly above an earlier one. *)
Definition descending {A : Type} (lt : A -> A -> bool) (l : list A) : Prop :=
  StronglySorted (fun a b => lt a b = false) l.

(** A peak whose height is a number. *)
Definition valid_height (q : peak) : Prop := is_nan (snd q) = false.

(** [q] is not higher than [a]. *)
Definition not_higher (q a : peak) : Prop := (snd q <=? snd a)%float = true.

(** [a], [b] and [c] are three highest candidates: the candidates are
    these three and others, none of which is higher than any of them. *)
Definition top3_by_height (cands : list peak) (a b c : peak) : Prop :=
  exists others : list peak,
    Permutation cands (a :: b :: c :: others) /\
    Forall (fun q => not_higher q a /\ not_higher q b /\ not_higher q c) others.

(** The integer mantissa [(-1)^s * m] of a finite float. *)
Definition signed (s : bool) (m : positive) : Z := if s then Zneg m else Zpos m.

(** The exact value of a float that is a number, as a rational; NaN and
    the infinities have none. *)
Definition float_value (f : float) : option Q :=
  match Prim2SF f with
  | S754_zero _ => Some 0%Q
  | S754_finite s m e => Some (inject_Z (signed s m) * Qpower 2 e)%Q
  | S754_infinity _ | S754_nan => None
  end.

Definition num_value (x : Py.num) : option Q :=
  match x with
  | Py.PInt z => Some (inject_Z z)
  | Py.PFloat f => float_value f
  end.

(** The loop test [abs(reading - end) > tolerance] is false on each of the
    three readings that end with reading number [n - 1]: the inner loop
    let the three of them pass. *)
Definition passed_at (poll : nat -> float) (target tolerance : float) (n : nat) : Prop :=
  3 <= n /\
  forall k, n - 3 <= k < n -> out_of_tolerance target tolerance (poll k) = false.

(** The absolute deviation of a reading from the target is within
    tolerance. *)
Definition in_tolerance (target tolerance reading : float) : bool :=
  (abs (reading - target) <=? tolerance)%float.

(** The deviation has been within tolerance for the three consecutive
    readings that end with reading number [n - 1]. *)
Definition settled_at (poll : nat -> float) (target tolerance : float) (n : nat) : Prop :=
  3 <= n /\
  forall k, n - 3 <= k < n -> in_tolerance target tolerance (poll k) = true.

(** The settle-wait as the claim has it: it returns only after three
    consecutive readings within tolerance, and it never returns on
    readings that are never within tolerance three times in a row. *)
Definition waits_for_three_within (poll : nat -> float) (target tolerance : float)
  : Prop :=
  (forall fuel n, set_and_wait fuel poll target tolerance = Some n ->
                  settled_at poll target tolerance n) /\
  ((forall n, ~ settled_at poll target tolerance n) ->
   forall fuel, set_and_wait fuel poll target tolerance = None).

(** Readings and a tolerance that compare: no deviation is NaN, and the
    tolerance is not. *)
Definition comparable (poll : nat -> float) (target tolerance : float) : Prop :=
  is_nan tolerance = false /\
  forall k, is_nan (abs (poll k - target)) = false.

(** A controller that reaches 25 degrees at its second reading and stays
    there. *)
Definition settling_poll (k : nat) : float := nth k [20]%float 25%float.

(** At the head of the outer loop of [set_and_wait], [count] is the length
    of the run of readings let through that ends with the last reading
    taken, [i] readings having been taken. *)
Definition run_length (poll : nat -> float) (target tolerance : float)
           (i count : nat) : Prop :=
  count <= i /\
  (forall k, i - count <= k < i ->
             out_of_tolerance target tolerance (poll k) = false) /\
  (count < i -> out_of_tolerance target tolerance (poll (i - count - 1)) = true).

(** The outcome of the [try] block of [main] up to the fit: the optimum or
    the exception raised. *)
Definition fit_attempt (curve_fit : cos2_fit) (bha : Sweep) : result cos2_params :=
  call <- fit_inputs (temperature bha) (mean bha) ;;
  curve_fit call.

(** The reading of a failed fit that keeps the raw visibility: a failure
    line, no fitted visibility, and the raw visibility of the stored means
    all the same. *)
Definition reports_raw_on_failure (errorbar : pyplot) (curve_fit : cos2_fit)
           (bha : Sweep) : Prop :=
  forall e, fit_attempt curve_fit bha = Raise e ->
    exists lines,
      main errorbar curve_fit bha = Ok lines /\
      In (FitFailed e) lines /\
      (forall v, ~ In (FittedVisibility v) lines) /\
      exists raw, raw_visibility (mean bha) = Ok raw /\
                  In (RawVisibility raw) lines.

(** A stored sweep of three setpoints, a fit that does not converge, and a
    stored sweep whose second setpoint gave no amplitude. *)
Definition sample_sweep : Sweep :=
  {| temperature := [20; 21; 22]%float;
     mean := [1; 3; 2]%float;
     std := [0; 0; 0]%float |}.

Definition failing_fit : cos2_fit := fun _ => Raise RuntimeError.

(** Plotting calls that return. *)
Definition drawing : pyplot := fun _ => Ok tt.

Definition sweep_with_gap : Sweep :=
  {| temperature := [20; 21; 22]%float;
     mean := [1; nan; 3]%float;
     std := [0; nan; 0]%float |}.

(** A synthetic window of 97 samples, flat but for three isolated samples:
    3 at position 5, 9 at position 50 and 1 at position 95. *)
Definition synthetic_window : list float :=
  (repeat 0 5 ++ [3] ++ repeat 0 44 ++ [9] ++ repeat 0 44 ++ [1; 0])%float.

(** Settings with a sampling rate of 8 samples per second and a delay of
    half a second, and a window with one peak at position 2. *)
Definition sample_settings : Settings :=
  {| sampling_rate := Py.PInt 8; period := Py.PFloat 0.5; delay := Py.PFloat 0.5 |}.

Definition sample_window : list float := [0; 1; 3; 1; 0; 0]%float.

(** Settings whose delay spans two samples only, and a fit that always
    returns the same optimum. *)
Definition short_delay_settings : Settings :=
  {| sampling_rate := Py.PInt 8; period := Py.PFloat 0.5; delay := Py.PFloat 0.25 |}.

Definition constant_fit : gaussian_fit := fun _ => Ok (1, 1, 1)%float.

(** A stored sweep whose means cancel, and a fit that returns. *)
Definition symmetric_sweep : Sweep :=
  {| temperature := [20; 21]%float;
     mean := [-1; 1]%float;
     std := [0; 0]%float |}.

Definition returning_fit : cos2_fit := fun call => Ok (guess call).

(** [h * 2^k] as a positive number. *)
Definition shl (h : positive) (k : Z) : positive :=
  match k with
  | Zpos p => Pos.iter xO h p
  | _ => h
  end.

(** A response to [CURVE?] made of one frame per channel, a header and the
    samples, and a closing byte. *)
Definition framed (frames : list (list Byte.byte * list Byte.byte)) (t : Byte.byte)
  : list Byte.byte :=
  concat (map (fun f => fst f ++ snd f) frames) ++ [t].

(** Every frame has a header of [h] bytes and [m] samples. *)
Definition uniform (h m : nat) (frames : list (list Byte.byte * list Byte.byte)) : Prop :=
  Forall (fun f => length (fst f) = h /\ length (snd f) = m) frames.

(** One call of [connect] or [close] on the wrapper, whatever the
    controller answers. *)
Inductive tec_step : Tec.TEC1092 -> Tec.TEC1092 -> Prop :=
| step_connect dev st : tec_step st (fst (Tec.connect dev st))
| step_close dev st : tec_step st (fst (Tec.close dev st)).

(** The states of the wrapper any sequence of calls can lead to. *)
Inductive tec_reachable : Tec.TEC1092 -> Prop :=
| reach_init : tec_reachable Tec.disconnected
| reach_step st st' : tec_reachable st -> tec_step st st' -> tec_reachable st'.

(** Before the deadline at the [k]-th look at the clock. *)
Definition before_deadline (now : nat -> float) (timeout : float) (k : nat) : Prop :=
  (now k <? now 0%nat + timeout)%float = true.

(** Reading number [j] came back and was out of tolerance. *)
Definition read_outside (temperature : nat -> result float)
           (target tolerance : float) (j : nat) : Prop :=
  exists T, temperature j = Ok T /\ Tec.within_tolerance target tolerance T = false.

(** Reading number [j] came back and was within tolerance. *)
Definition read_inside (temperature : nat -> result float)
           (target tolerance : float) (j : nat) : Prop :=
  exists T, temperature j = Ok T /\ Tec.within_tolerance target tolerance T = true.

(** [adds_up l v]: [v] comes from adding up the floats of [l], each of
    them once, by binary64 additions in some order and grouping; a sum
    may start from a zero. *)
Inductive adds_up : list float -> float -> Prop :=
| adds_zero z : (z =? 0)%float = true -> adds_up [] z
| adds_one v : adds_up [v] v
| adds_plus l1 l2 a b :
    adds_up l1 a -> adds_up l2 b -> adds_up (l1 ++ l2) (a + b)%float
| adds_perm l l' v : Permutation l l' -> adds_up l v -> adds_up l' v.

(** A sleep that returns. *)
Definition sleeping : float -> result unit := fun _ => Ok tt.

(** An instrument that takes every command and answers every query. *)
Definition answering (reply : list Scope.command -> Scope.command -> float)
  : Scope.Instrument :=
  {| Scope.on_write := fun _ _ => Ok tt;
     Scope.on_query := fun h c => Ok (reply h c) |}.

(** What [connect] sends before it calls [change_channels]. *)
Definition configuration (chans : list Z) (memory : Z) : list Scope.command :=
  [Scope.DATA_SOU chans; Scope.DATA_WIDTH_1; Scope.DATA_ENC_FAS;
   Scope.WFMPRE_YMULT; Scope.WFMPRE_YZERO; Scope.WFMPRE_YOFF; Scope.WFMPRE_XINCR;
   Scope.HORIZONTAL_MAIN_SCALE; Scope.HORIZONTAL_MAIN_POSITION;
   Scope.HORIZONTAL_RECORDLENGTH;
   Scope.DATA_START_1; Scope.DATA_STOP memory].

(** What [change_channels] sends. *)
Definition channel_selection (chans : list Z) : list Scope.command :=
  [Scope.DATA_SOU chans;
   Scope.WFMPRE_YMULT; Scope.WFMPRE_YZERO; Scope.WFMPRE_YOFF; Scope.WFMPRE_XINCR;
   Scope.HORIZONTAL_MAIN_SCALE; Scope.HORIZONTAL_MAIN_POSITION;
   Scope.HORIZONTAL_RECORDLENGTH].

(** The object holds a resource that is open. *)
Definition holds_open_resource (s : Scope.Oscilloscope) : Prop :=
  exists r, Scope._scope s = Some r /\ Scope.is_open r = true.

(** An object that holds an open resource and is not marked connected. *)
Definition pending (s : Scope.Oscilloscope) : Prop :=
  Scope._is_connected s = false /\ holds_open_resource s.

(** A method that leaves a pending object pending, whether it raises or
    not. *)
Definition keeps_pending {A : Type} (m : Scope.method A) : Prop :=
  forall s, pending s -> pending (fst (m s)).

(** A method that raises from every state. *)
Definition always_raises {A : Type} (m : Scope.method A) : Prop :=
  forall s, exists f, snd (m s) = inr f.

(** The object while the commands [l] have gone through on its open
    resource: the number of channels, the record length and the mark it
    holds, and scale attributes that are set. *)
Definition state_is (l : list Scope.command) (n : nat) (m : Z) (b : bool)
           (done : list Scope.attr) (s : Scope.Oscilloscope) : Prop :=
  Scope._scope s = Some {| Scope.sent := l; Scope.is_open := true |}
  /\ Scope._nchan s = n /\ Scope._memory s = m /\ Scope._is_connected s = b
  /\ Forall (fun a => Scope.scale s a <> None) done.

(** From a state in [P] the method ends in an outcome in [R]. *)
Definition after {A : Type} (P : Scope.Oscilloscope -> Prop) (m : Scope.method A)
           (R : Scope.Oscilloscope * (A + Scope.failure) -> Prop) : Prop :=
  forall s, P s -> R (m s).

(** The outcomes that are a return in [Q]. *)
Definition returned {A : Type} (Q : A -> Scope.Oscilloscope -> Prop)
  : Scope.Oscilloscope * (A + Scope.failure) -> Prop :=
  fun out => exists a, snd out = inl a /\ Q a (fst out).

(** A response with two channels of three samples each. *)
Definition sample_frames : list (list Byte.byte * list Byte.byte) :=
  [([Byte.x23; Byte.x31; Byte.x33], [Byte.x01; Byte.xff; Byte.x80]);
   ([Byte.x23; Byte.x31; Byte.x33], [Byte.x7f; Byte.x00; Byte.xfe])].

Definition sample_scale : Osc.Scale :=
  {| Osc.ymult := 0.5%float; Osc.yzero := 0%float; Osc.yoff := 0%float |}.

(** ** Properties of the segmenter *)

Section Chunks.
Context {A : Type}.
Implicit Types (arr : list A) (n : nat).

Lemma slice_skipn arr i n :
  Py.slice arr i (i + n) = firstn n (skipn i arr).
Proof. unfold Py.slice. f_equal. lia. Qed.

Lemma skipn_add arr i n : skipn (i + n) arr = skipn n (skipn i arr).
Proof. rewrite Nat.add_comm. symmetry. apply skipn_skipn. Qed.

(** The chunks from offset [i] on concatenate to the rest of the list. *)
Lemma concat_range_from arr n fuel i :
  1 <= n -> length arr - i <= fuel ->
  concat (map (fun j => Py.slice arr j (j + n))
              (Py.range_from fuel i (length arr) n)) = skipn i arr.
Proof.
  intros Hn. revert i. induction fuel as [|fuel IH]; intros i Hf; simpl.
  - symmetry. apply skipn_all2. lia.
  - destruct (Nat.ltb_spec i (length arr)) as [Hi|Hi]; simpl.
    + rewrite IH by lia. rewrite slice_skipn, skipn_add.
      apply firstn_skipn.
    + symmetry. apply skipn_all2. lia.
Qed.

(** Every produced chunk holds between one and [n] elements, and a chunk
    that is followed by another one holds exactly [n]. *)
Lemma range_from_lengths arr n fuel i :
  1 <= n ->
  let chunks := map (fun j => Py.slice arr j (j + n))
                    (Py.range_from fuel i (length arr) n) in
  Forall (fun c => 1 <= length c <= n) chunks /\
  Forall (fun c => length c = n) (removelast chunks).
Proof.
  intros Hn. revert i. induction fuel as [|fuel IH]; intros i; simpl.
  - split; constructor.
  - destruct (Nat.ltb_spec i (length arr)) as [Hi|Hi]; simpl.
    2:{ split; constructor. }
    destruct (IH (i + n)) as [IH1 IH2].
    assert (Hlen : length (Py.slice arr i (i + n)) = Nat.min n (length arr - i)).
    { rewrite slice_skipn, length_firstn, length_skipn. reflexivity. }
    split.
    + constructor; [lia | exact IH1].
    + destruct fuel as [|fuel']; simpl in *; [constructor|].
      destruct (Nat.ltb_spec (i + n) (length arr)) as [Hj|Hj]; simpl in *.
      * constructor; [lia | exact IH2].
      * constructor.
Qed.

Lemma chunk_array_positive arr (size : Z) :
  (1 <= size)%Z ->
  chunk_array arr size =
    Ok (map (fun j => Py.slice arr j (j + Z.to_nat size))
            (Py.range_from (length arr) 0 (length arr) (Z.to_nat size))).
Proof.
  intros Hs. unfold chunk_array, Py.range0.
  destruct (Z.eqb_spec size 0) as [->|_]; [lia|].
  destruct (Z.ltb_spec size 0) as [?|_]; [lia|].
  reflexivity.
Qed.

End Chunks.

(** C10.  For every list and every chunk size of at least one,
    [chunk_array] returns chunks that partition the input: their
    concatenation is the input, every chunk but the last has exactly
    [size] elements, and the last one (present when the input is not
    empty) has between 1 and [size] elements. *)
Theorem chunk_array_partition (A : Type) (arr : list A) (size : Z) :
  (1 <= size)%Z ->
  exists chunks : list (list A),
    chunk_array arr size = Ok chunks /\
    concat chunks = arr /\
    Forall (fun c => Z.of_nat (length c) = size) (removelast chunks) /\
    (arr <> [] ->
     chunks <> [] /\
     (1 <= Z.of_nat (length (last chunks [])) <= size)%Z).
Proof.
  intros Hs. eexists. split; [apply chunk_array_positive; exact Hs|].
  assert (Hn : 1 <= Z.to_nat size) by lia.
  pose proof (range_from_lengths arr (length arr) 0 Hn) as [Hall Hinit].
  cbv zeta in Hall, Hinit.
  pose proof (concat_range_from arr (fuel := length arr) 0 Hn) as Hcat.
  rewrite Hcat by lia. simpl skipn.
  set (chunks := map _ _) in *.
  split; [reflexivity|]. split.
  - eapply Forall_impl; [|exact Hinit]. simpl. intros c Hc. lia.
  - intros Hne.
    assert (Hch : chunks <> []).
    { intros E. rewrite E in Hcat. simpl in Hcat. specialize (Hcat ltac:(lia)).
      congruence. }
    split; [exact Hch|].
    destruct (exists_last Hch) as (front & c & E). rewrite E in *.
    rewrite last_last.
    apply Forall_app in Hall as [_ Hc]. inversion Hc; subst. lia.
Qed.

Lemma chunk_array_partition_witness :
  (1 <= 3)%Z /\
  exists chunks : list (list Z),
    chunk_array [1; 2; 3; 4; 5; 6; 7]%Z 3 = Ok chunks /\
    concat chunks = [1; 2; 3; 4; 5; 6; 7]%Z /\
    Forall (fun c => Z.of_nat (length c) = 3%Z) (removelast chunks) /\
    chunks <> [] /\
    (1 <= Z.of_nat (length (last chunks [])) <= 3)%Z.
Proof.
  assert (Hs : (1 <= 3)%Z) by lia. split; [exact Hs|].
  destruct (@chunk_array_partition Z [1; 2; 3; 4; 5; 6; 7]%Z 3%Z Hs)
    as (chunks & Hc & Hcat & Hfull & Hlast).
  exists chunks. split; [exact Hc|]. split; [exact Hcat|]. split; [exact Hfull|].
  apply Hlast. discriminate.
Defined.

(** C4.  The windows are the chunks of length [period] without the first
    one, whatever it holds: for a non-empty trace the first chunk is the
    first [period] samples and the windows are the chunks that follow,
    which together hold the trace after its first [period] samples.  A
    trace of [5 * period + period / 2] samples with [period = 100] gives
    six chunks and five windows, none of them empty, the last one of
    length 50. *)
Theorem windows_drop_first_chunk (A : Type) (voltages : list A) (period : Z) :
  (1 <= period)%Z ->
  exists chunks ws : list (list A),
    chunk_array voltages period = Ok chunks /\
    windows voltages period = Ok ws /\
    ws = tl chunks /\
    (voltages <> [] -> chunks = firstn (Z.to_nat period) voltages :: ws) /\
    concat ws = skipn (Z.to_nat period) voltages /\
    (period = 100%Z ->
     Z.of_nat (length voltages) = (5 * period + period / 2)%Z ->
     length chunks = 6 /\ length ws = 5 /\
     Forall (fun w => length w <> 0) ws /\
     length (last ws []) = 50).
Proof.
  intros Hp. unfold windows. rewrite (chunk_array_positive voltages Hp).
  do 2 eexists. split; [reflexivity|]. split; [reflexivity|].
  split; [reflexivity|].
  assert (Hhd : voltages <> [] ->
                map (fun j => Py.slice voltages j (j + Z.to_nat period))
                    (Py.range_from (length voltages) 0 (length voltages) (Z.to_nat period))
                = firstn (Z.to_nat period) voltages
                  :: tl (map (fun j => Py.slice voltages j (j + Z.to_nat period))
                             (Py.range_from (length voltages) 0 (length voltages)
                                            (Z.to_nat period)))).
  { intros Hne. destruct voltages as [|v vs]; [congruence|].
    cbn [length Py.range_from].
    change (0 <? S (length vs)) with true. cbn iota. cbn [map tl].
    f_equal. rewrite (slice_skipn (v :: vs) 0). reflexivity. }
  split; [exact Hhd|]. split.
  - destruct voltages as [|v vs]; [destruct (Z.to_nat period); reflexivity|].
    assert (Hn : 1 <= Z.to_nat period) by lia.
    pose proof (concat_range_from (v :: vs) (fuel := length (v :: vs)) 0 Hn) as Hcat.
    specialize (Hcat ltac:(lia)). rewrite Hhd in Hcat by discriminate.
    cbn [concat] in Hcat. change (skipn 0 (v :: vs)) with (v :: vs) in Hcat.
    apply (app_inv_head (firstn (Z.to_nat period) (v :: vs))).
    rewrite firstn_skipn. exact Hcat.
  - intros -> Hlen. change (5 * 100 + 100 / 2)%Z with 550%Z in Hlen.
    assert (Hn : length voltages = 550) by lia.
    rewrite Hn. change (Z.to_nat 100) with 100.
    set (r := Py.range_from 550 0 550 100).
    vm_compute in r. subst r. cbn [map tl length last].
    split; [reflexivity|]. split; [reflexivity|].
    unfold Py.slice.
    split.
    + repeat constructor; rewrite length_firstn, length_skipn, Hn; simpl; lia.
    + rewrite length_firstn, length_skipn, Hn. reflexivity.
Qed.

Lemma windows_drop_first_chunk_witness :
  (1 <= 100)%Z /\
  exists chunks ws : list (list Z),
    chunk_array (repeat 0%Z 550) 100 = Ok chunks /\
    windows (repeat 0%Z 550) 100 = Ok ws /\
    ws = tl chunks /\
    chunks = firstn 100 (repeat 0%Z 550) :: ws /\
    concat ws = skipn 100 (repeat 0%Z 550) /\
    length chunks = 6 /\ length ws = 5 /\
    Forall (fun w => length w <> 0) ws /\
    length (last ws []) = 50.
Proof.
  assert (Hp : (1 <= 100)%Z) by lia. split; [exact Hp|].
  destruct (@windows_drop_first_chunk Z (repeat 0%Z 550) 100%Z Hp)
    as (chunks & ws & Hc & Hw & Htl & Hhd & Hcat & Hex).
  exists chunks, ws. split; [exact Hc|]. split; [exact Hw|]. split; [exact Htl|].
  split; [apply Hhd; discriminate|]. split; [exact Hcat|].
  apply Hex; reflexivity.
Defined.

(** ** The order of binary64 floats *)

Ltac sf_cases :=
  change (Pos.compare_cont Eq) with Pos.compare in *;
  repeat match goal with
         | |- context [Z.compare ?a ?b] => destruct (Z.compare_spec a b); subst
         | H : context [Z.compare ?a ?b] |- _ => destruct (Z.compare_spec a b); subst
         | |- context [Pos.compare ?a ?b] => destruct (Pos.compare_spec a b); subst
         | H : context [Pos.compare ?a ?b] |- _ => destruct (Pos.compare_spec a b); subst
         end;
  simpl in *; try reflexivity; try discriminate; try lia.

Lemma SFltb_asym a b : SFltb a b = true -> SFltb b a = false.
Proof.
  unfold SFltb, SFcompare.
  destruct a as [[]|[]| |[] ma ea], b as [[]|[]| |[] mb eb];
    try reflexivity; try discriminate; intros H; sf_cases.
Qed.

Lemma SFltb_negtrans a b c :
  b <> S754_nan -> SFltb a b = false -> SFltb b c = false -> SFltb a c = false.
Proof.
  unfold SFltb, SFcompare.
  destruct a as [[]|[]| |[] ma ea], b as [[]|[]| |[] mb eb], c as [[]|[]| |[] mc ec];
    try reflexivity; try discriminate; try congruence; intros _ H1 H2; sf_cases.
Qed.

Lemma SFleb_ltb a b :
  a <> S754_nan -> b <> S754_nan -> SFleb a b = negb (SFltb b a).
Proof.
  unfold SFleb, SFltb, SFcompare.
  destruct a as [[]|[]| |[] ma ea], b as [[]|[]| |[] mb eb];
    try reflexivity; try congruence; intros _ _; sf_cases.
Qed.

Lemma SFeqb_refl a : a <> S754_nan -> SFeqb a a = true.
Proof.
  unfold SFeqb, SFcompare.
  destruct a as [[]|[]| |[] ma ea]; try reflexivity; try congruence; intros _; sf_cases.
Qed.

Lemma is_nan_Prim2SF f : is_nan f = false <-> Prim2SF f <> S754_nan.
Proof.
  unfold is_nan. rewrite FloatAxioms.eqb_spec. split.
  - intros H E. rewrite E in H. discriminate.
  - intros H. rewrite SFeqb_refl by exact H. reflexivity.
Qed.

Lemma ltb_asym (a b : float) : (a <? b)%float = true -> (b <? a)%float = false.
Proof. rewrite !FloatAxioms.ltb_spec. apply SFltb_asym. Qed.

Lemma ltb_negtrans (a b c : float) :
  is_nan b = false ->
  (a <? b)%float = false -> (b <? c)%float = false -> (a <? c)%float = false.
Proof. rewrite is_nan_Prim2SF, !FloatAxioms.ltb_spec. apply SFltb_negtrans. Qed.

Lemma leb_negb_ltb (a b : float) :
  is_nan a = false -> is_nan b = false -> (a <=? b)%float = negb (b <? a)%float.
Proof. rewrite !is_nan_Prim2SF, FloatAxioms.leb_spec, FloatAxioms.ltb_spec. apply SFleb_ltb. Qed.

Lemma ltb_not_nan (a b : float) :
  (a <? b)%float = true -> is_nan a = false /\ is_nan b = false.
Proof.
  rewrite !is_nan_Prim2SF, FloatAxioms.ltb_spec. unfold SFltb, SFcompare.
  destruct (Prim2SF a), (Prim2SF b); try discriminate; split; discriminate.
Qed.

Lemma eqb_not_nan (a b : float) :
  (a =? b)%float = true -> is_nan a = false /\ is_nan b = false.
Proof.
  rewrite !is_nan_Prim2SF, FloatAxioms.eqb_spec. unfold SFeqb, SFcompare.
  destruct (Prim2SF a), (Prim2SF b); try discriminate; split; discriminate.
Qed.

(** ** Stable sorting with a strict comparison *)

Section Sorting.
Context {A : Type} (lt : A -> A -> bool) (P : A -> Prop).
Hypothesis lt_asym : forall a b, lt a b = true -> lt b a = false.
Hypothesis lt_negtrans :
  forall a b c, P b -> lt a b = false -> lt b c = false -> lt a c = false.

Local Abbreviation ascending := (ascending lt).
Local Abbreviation descending := (descending lt).

Lemma insert_by_perm a l : Permutation (a :: l) (Py.insert_by lt a l).
Proof.
  induction l as [|b l IH]; simpl; [reflexivity|].
  destruct (lt a b); [reflexivity|].
  rewrite perm_swap. constructor. exact IH.
Qed.

Lemma insert_by_ascending a l :
  Forall P l -> ascending l -> ascending (Py.insert_by lt a l).
Proof.
  unfold ascending. induction l as [|b l IH]; intros HP Hs; simpl.
  - repeat constructor.
  - inversion HP as [|? ? Pb Pl]; subst.
    inversion Hs as [|? ? Hl Hb]; subst.
    destruct (lt a b) eqn:Hab.
    + constructor; [exact Hs|]. constructor; [apply lt_asym; exact Hab|].
      rewrite Forall_forall in *. intros x Hx.
      apply lt_negtrans with b; [exact Pb | apply Hb; exact Hx | apply lt_asym; exact Hab].
    + constructor; [apply IH; assumption|].
      eapply Permutation_Forall; [apply insert_by_perm|].
      constructor; assumption.
Qed.

Lemma sorted_acc l : forall acc,
  Forall P acc -> Forall P l -> ascending acc ->
  let r := fold_left (fun acc a => Py.insert_by lt a acc) l acc in
  Permutation (acc ++ l) r /\ ascending r.
Proof.
  induction l as [|a l IH]; intros acc Pacc Pl Hacc; simpl.
  - rewrite app_nil_r. split; [reflexivity | exact Hacc].
  - inversion Pl as [|? ? Pa Pl']; subst.
    destruct (IH (Py.insert_by lt a acc)) as [Hp Hs].
    + eapply Permutation_Forall; [apply insert_by_perm|]. constructor; assumption.
    + exact Pl'.
    + apply insert_by_ascending; assumption.
    + split; [|exact Hs].
      rewrite <- Hp. rewrite <- insert_by_perm.
      symmetry. apply Permutation_middle.
Qed.

Lemma sorted_perm l : Forall P l -> Permutation l (Py.sorted lt l).
Proof.
  intros Pl. apply (sorted_acc (Forall_nil P) Pl). constructor.
Qed.

Lemma sorted_ascending l : Forall P l -> ascending (Py.sorted lt l).
Proof.
  intros Pl. apply (sorted_acc (Forall_nil P) Pl). constructor.
Qed.

Lemma descending_snoc l : forall a,
  descending l -> Forall (fun b => lt b a = false) l -> descending (l ++ [a]).
Proof.
  unfold descending. induction l as [|b l IH]; intros a Hs Ha; simpl.
  - repeat constructor.
  - inversion Hs; subst. inversion Ha; subst.
    constructor; [apply IH; assumption|].
    apply Forall_app. split; [assumption|]. repeat constructor. assumption.
Qed.

Lemma ascending_rev l : ascending l -> descending (rev l).
Proof.
  induction 1 as [|a l Hs IH Ha]; simpl.
  - constructor.
  - apply descending_snoc; [exact IH|]. apply Forall_rev. exact Ha.
Qed.

Lemma sorted_reverse_perm l : Forall P l -> Permutation l (Py.sorted_reverse lt l).
Proof.
  intros Pl. unfold Py.sorted_reverse.
  rewrite <- Permutation_rev. rewrite <- sorted_perm.
  - apply Permutation_rev.
  - apply Forall_rev. exact Pl.
Qed.

Lemma sorted_reverse_descending l : Forall P l -> descending (Py.sorted_reverse lt l).
Proof.
  intros Pl. apply ascending_rev. apply sorted_ascending.
  apply Forall_rev. exact Pl.
Qed.

End Sorting.

(** ** The peaks found by [find_peaks] *)

Lemma plateau_end_spec x xi i_max fuel : forall i_ahead,
  let j := Np.plateau_end fuel x xi i_ahead i_max in
  i_ahead <= j /\
  forall k, i_ahead <= k < j -> (Np.get x k =? xi)%float = true.
Proof.
  induction fuel as [|fuel IH]; intros i_ahead; simpl.
  - split; [lia|]. intros k Hk. lia.
  - destruct (i_ahead <? i_max); simpl.
    2:{ split; [lia|]. intros k Hk. lia. }
    destruct (Np.get x i_ahead =? xi)%float eqn:E.
    2:{ split; [lia|]. intros k Hk. lia. }
    destruct (IH (S i_ahead)) as [Hle Heq]. split; [lia|].
    intros k Hk. destruct (Nat.eq_dec k i_ahead) as [->|Hne]; [exact E|].
    apply Heq. lia.
Qed.

(** The peaks come in strictly ascending position and none of them sits
    on a NaN sample. *)
Lemma local_maxima_from_spec x i_max fuel : forall i,
  let peaks := Np.local_maxima_from fuel x i i_max in
  StronglySorted Nat.lt peaks /\
  Forall (fun p => i <= p /\ is_nan (Np.get x p) = false) peaks.
Proof.
  induction fuel as [|fuel IH]; intros i; cbn [Np.local_maxima_from].
  - split; constructor.
  - destruct (i <? i_max); [|split; constructor].
    assert (Hnext : forall j, i <= j ->
              let peaks := Np.local_maxima_from fuel x j i_max in
              StronglySorted Nat.lt peaks /\
              Forall (fun p => i <= p /\ is_nan (Np.get x p) = false) peaks).
    { intros j Hj. destruct (IH j) as [Hs Hf]. split; [exact Hs|].
      eapply Forall_impl; [|exact Hf]. simpl. intros p [? ?]. split; [lia|assumption]. }
    destruct (Np.get x (i - 1) <? Np.get x i)%float eqn:Hrise; [|apply Hnext; lia].
    set (i_ahead := Np.plateau_end (length x) x (Np.get x i) (i + 1) i_max).
    destruct (Np.get x i_ahead <? Np.get x i)%float eqn:Hfall; [|apply Hnext; lia].
    destruct (plateau_end_spec x (Np.get x i) i_max (length x) (i + 1)) as [Hle Heq].
    fold i_ahead in Hle, Heq.
    destruct (IH (i_ahead + 1)) as [Hs Hf].
    assert (Hmid : i <= (i + (i_ahead - 1)) / 2 < i_ahead).
    { split.
      - apply Nat.div_le_lower_bound; lia.
      - apply Nat.Div0.div_lt_upper_bound; lia. }
    set (mid := (i + (i_ahead - 1)) / 2) in *. clearbody mid.
    split.
    + constructor; [exact Hs|].
      eapply Forall_impl; [|exact Hf]. cbv beta. unfold Nat.lt. intros p [Hp _]. lia.
    + constructor.
      * split; [lia|].
        destruct (Nat.eq_dec mid i) as [->|Hne].
        -- apply (ltb_not_nan Hrise).
        -- apply (@eqb_not_nan (Np.get x mid) (Np.get x i)).
           apply Heq. lia.
      * eapply Forall_impl; [|exact Hf]. cbv beta. intros p [Hp Hn].
        split; [lia | exact Hn].
Qed.

(** The fuel of both scans is enough: any fuel that covers the samples left
    gives the same result. *)
Lemma plateau_end_fuel x xi i_max fuel : forall fuel' i_ahead,
  i_max - i_ahead <= fuel -> i_max - i_ahead <= fuel' ->
  Np.plateau_end fuel x xi i_ahead i_max = Np.plateau_end fuel' x xi i_ahead i_max.
Proof.
  induction fuel as [|fuel IH]; intros [|fuel'] i_ahead H H'; simpl; try reflexivity.
  - destruct (Nat.ltb_spec i_ahead i_max); [lia | reflexivity].
  - destruct (Nat.ltb_spec i_ahead i_max); [lia | reflexivity].
  - destruct (Nat.ltb_spec i_ahead i_max); [|reflexivity]. simpl.
    destruct (Np.get x i_ahead =? xi)%float; [|reflexivity].
    apply IH; lia.
Qed.

Lemma local_maxima_from_fuel x i_max fuel : forall fuel' i,
  i_max - i <= fuel -> i_max - i <= fuel' ->
  Np.local_maxima_from fuel x i i_max = Np.local_maxima_from fuel' x i i_max.
Proof.
  induction fuel as [|fuel IH]; intros [|fuel'] i H H';
    cbn [Np.local_maxima_from]; try reflexivity.
  - destruct (Nat.ltb_spec i i_max); [lia | reflexivity].
  - destruct (Nat.ltb_spec i i_max); [lia | reflexivity].
  - destruct (Nat.ltb_spec i i_max); [|reflexivity].
    pose proof (plateau_end_spec x (Np.get x i) i_max (length x) (i + 1)) as [Hle _].
    destruct (Np.get x (i - 1) <? Np.get x i)%float; [|apply IH; lia].
    destruct (Np.get x _ <? Np.get x i)%float; [|apply IH; lia].
    f_equal. apply IH; lia.
Qed.

Lemma find_peaks_sorted chunk : StronglySorted Nat.lt (Np.find_peaks chunk).
Proof. apply local_maxima_from_spec. Qed.

Lemma find_peaks_not_nan chunk :
  Forall (fun p => is_nan (Np.get chunk p) = false) (Np.find_peaks chunk).
Proof.
  eapply Forall_impl; [|apply local_maxima_from_spec]. simpl. intros p [_ H]. exact H.
Qed.

Lemma candidates_not_nan chunk :
  Forall (fun q : peak => is_nan (snd q) = false) (candidates chunk).
Proof.
  unfold candidates. apply Forall_map. simpl. apply find_peaks_not_nan.
Qed.

Lemma strongly_sorted_lt_NoDup (l : list nat) : StronglySorted Nat.lt l -> NoDup l.
Proof.
  induction 1 as [|a l Hs IH Ha]; constructor; [|exact IH].
  intros Hin. rewrite Forall_forall in Ha. specialize (Ha a Hin). lia.
Qed.

Lemma candidates_positions_NoDup chunk : NoDup (map fst (candidates chunk)).
Proof.
  unfold candidates. rewrite map_map. simpl.
  apply Finite.Injective_map_NoDup.
  - intros a b. apply Nat2Z.inj.
  - apply strongly_sorted_lt_NoDup, find_peaks_sorted.
Qed.

Lemma candidates_length chunk : length (candidates chunk) = length (Np.find_peaks chunk).
Proof. unfold candidates. apply length_map. Qed.

(** ** The peak selector *)

Lemma height_lt_asym a b : height_lt a b = true -> height_lt b a = false.
Proof. apply ltb_asym. Qed.

Lemma height_lt_negtrans a b c :
  valid_height b -> height_lt a b = false -> height_lt b c = false ->
  height_lt a c = false.
Proof. apply ltb_negtrans. Qed.

Lemma position_lt_asym a b : position_lt a b = true -> position_lt b a = false.
Proof. unfold position_lt. lia. Qed.

Lemma position_lt_negtrans a b c :
  True -> position_lt a b = false -> position_lt b c = false ->
  position_lt a c = false.
Proof. unfold position_lt. lia. Qed.

Lemma not_higher_of_height_lt (q a : peak) :
  valid_height q -> valid_height a -> height_lt a q = false -> not_higher q a.
Proof.
  unfold not_higher, valid_height, height_lt. intros Hq Ha Hlt.
  rewrite leb_negb_ltb by assumption. rewrite Hlt. reflexivity.
Qed.

Lemma height_lt_irrefl (a : peak) : height_lt a a = false.
Proof.
  destruct (height_lt a a) eqn:E; [|reflexivity].
  rewrite (height_lt_asym E) in E. discriminate.
Qed.

(** [arr] as the program sorts it: a rearrangement of the candidates in
    which no peak is followed by a higher one. *)
Lemma sorted_candidates chunk :
  let arr := Py.sorted_reverse height_lt (candidates chunk) in
  Permutation (candidates chunk) arr /\
  descending height_lt arr /\
  Forall valid_height arr.
Proof.
  pose proof (candidates_not_nan chunk) as Hv.
  pose proof (@sorted_reverse_perm _ height_lt valid_height
                height_lt_asym height_lt_negtrans _ Hv) as Hp.
  split; [exact Hp|]. split.
  - apply (@sorted_reverse_descending _ height_lt valid_height
             height_lt_asym height_lt_negtrans _ Hv).
  - eapply Permutation_Forall; [exact Hp | exact Hv].
Qed.

(** No candidate is higher than the first one of the sorted [arr]. *)
Lemma sorted_head_highest chunk t rest :
  Py.sorted_reverse height_lt (candidates chunk) = t :: rest ->
  In t (candidates chunk) /\
  forall q, In q (candidates chunk) -> not_higher q t.
Proof.
  intros E. destruct (sorted_candidates chunk) as (Hp & Hd & Hv).
  cbv zeta in Hp, Hd, Hv. rewrite E in *.
  split.
  - eapply Permutation_in; [symmetry; exact Hp | left; reflexivity].
  - intros q Hq. apply (Permutation_in _ Hp) in Hq.
    rewrite Forall_forall in Hv.
    apply not_higher_of_height_lt; [apply Hv; exact Hq | apply Hv; left; reflexivity |].
    destruct Hq as [<-|Hq]; [apply height_lt_irrefl|].
    inversion Hd as [|? ? _ Hall]; subst.
    rewrite Forall_forall in Hall. apply Hall. exact Hq.
Qed.

Lemma interference_peak_index_some chunk :
  Np.find_peaks chunk <> [] ->
  interference_peak_index chunk =
    Some (select_index (Py.sorted_reverse height_lt (candidates chunk))).
Proof.
  unfold interference_peak_index. destruct (Np.find_peaks chunk); congruence.
Qed.

Lemma fit_window_no_peak d chunk :
  interference_peak_index chunk = None -> fit_window d chunk = None.
Proof.
  intros E. unfold fit_window. rewrite E. destruct (length chunk =? 0); reflexivity.
Qed.

(** C7.  A window in which [find_peaks] finds no local maximum is skipped:
    no index is selected and the window adds no amplitude, whatever the
    fit would do.  With one or two local maxima the selected index is the
    position of a candidate that no candidate is higher than. *)
Theorem peak_selector_few_peaks (chunk : list float) :
  length (Np.find_peaks chunk) <= 2 ->
  (Np.find_peaks chunk = [] ->
   interference_peak_index chunk = None /\
   forall (curve_fit : gaussian_fit) (d : Z),
     chunk_height curve_fit d chunk = Ok None) /\
  (Np.find_peaks chunk <> [] ->
   exists a : peak,
     In a (candidates chunk) /\
     interference_peak_index chunk = Some (fst a) /\
     forall q, In q (candidates chunk) -> not_higher q a).
Proof.
  intros Hlen. split.
  - intros E.
    assert (Hnone : interference_peak_index chunk = None).
    { unfold interference_peak_index. rewrite E. reflexivity. }
    split; [exact Hnone|]. intros curve_fit d.
    unfold chunk_height. rewrite (fit_window_no_peak d chunk Hnone). reflexivity.
  - intros Hne. rewrite (interference_peak_index_some chunk Hne).
    destruct (sorted_candidates chunk) as (Hp & _ & _). cbv zeta in Hp.
    pose proof (Permutation_length Hp) as Hl. rewrite candidates_length in Hl.
    destruct (Py.sorted_reverse height_lt (candidates chunk)) as [|t rest] eqn:E.
    { destruct (Np.find_peaks chunk); [congruence | discriminate]. }
    destruct (sorted_head_highest chunk E) as [Hin Hmax].
    exists t. split; [exact Hin|]. split; [|exact Hmax].
    f_equal. unfold select_index.
    replace (length (t :: rest) <? 3) with true.
    + destruct (length (t :: rest) =? 1); reflexivity.
    + symmetry. apply Nat.ltb_lt. lia.
Qed.

Lemma peak_selector_few_peaks_witness :
  length (Np.find_peaks [0; 1; 0; 3; 0]%float) <= 2 /\
  exists a : peak,
    In a (candidates [0; 1; 0; 3; 0]%float) /\
    interference_peak_index [0; 1; 0; 3; 0]%float = Some (fst a) /\
    forall q, In q (candidates [0; 1; 0; 3; 0]%float) -> not_higher q a.
Proof.
  assert (Hlen : length (Np.find_peaks [0; 1; 0; 3; 0]%float) <= 2)
    by (vm_compute; lia).
  split; [exact Hlen|].
  apply (proj2 (peak_selector_few_peaks [0; 1; 0; 3; 0]%float Hlen)).
  vm_compute. discriminate.
Defined.

(** Three peaks at distinct positions, sorted by position: the middle one
    lies strictly between the other two. *)
Lemma sorted_three_by_position (t1 t2 t3 : peak) :
  NoDup (map fst [t1; t2; t3]) ->
  exists x y z : peak,
    Py.sorted position_lt [t1; t2; t3] = [x; y; z] /\
    Permutation [t1; t2; t3] [x; y; z] /\
    (fst x < fst y < fst z)%Z.
Proof.
  intros Hnd.
  assert (Htrue : Forall (fun _ : peak => True) [t1; t2; t3]) by (repeat constructor).
  pose proof (@sorted_perm _ position_lt (fun _ => True)
                position_lt_asym position_lt_negtrans _ Htrue) as Hp.
  pose proof (@sorted_ascending _ position_lt (fun _ => True)
                position_lt_asym position_lt_negtrans _ Htrue) as Hs.
  pose proof (Permutation_length Hp) as Hl.
  destruct (Py.sorted position_lt [t1; t2; t3]) as [|x [|y [|z [|? ?]]]];
    try discriminate.
  exists x, y, z. split; [reflexivity|]. split; [exact Hp|].
  assert (Hnd' : NoDup (map fst [x; y; z])).
  { eapply Permutation_NoDup; [apply Permutation_map; exact Hp | exact Hnd]. }
  inversion Hs as [|? ? Hs' Hx]; subst. inversion Hs' as [|? ? _ Hy]; subst.
  inversion Hx as [|? ? Hyx Hx']; subst. inversion Hx' as [|? ? Hzx _]; subst.
  inversion Hy as [|? ? Hzy _]; subst.
  inversion Hnd' as [|? ? Hnx Hnd'']; subst. inversion Hnd'' as [|? ? Hny _]; subst.
  simpl in Hnx, Hny. unfold position_lt in *.
  assert (fst x <> fst y) by (intros Exy; apply Hnx; left; congruence).
  assert (fst y <> fst z) by (intros Eyz; apply Hny; left; congruence).
  lia.
Qed.

(** C3.  With at least three local maxima the selected index is the
    position of one of three highest candidates, the one that lies between
    the other two: the candidates split into [a], [b], [c] and others that
    are not higher than any of the three, with [a] left of [b] left of
    [c], and [b] is selected.  A window whose candidates are the peaks at
    5, 50 and 95 with heights 3, 9 and 1 has index 50 selected. *)
Theorem peak_selector_top3_median (chunk : list float) :
  3 <= length (Np.find_peaks chunk) ->
  (exists a b c : peak,
     top3_by_height (candidates chunk) a b c /\
     (fst a < fst b < fst c)%Z /\
     interference_peak_index chunk = Some (fst b)) /\
  (candidates chunk = [(5%Z, 3%float); (50%Z, 9%float); (95%Z, 1%float)] ->
   interference_peak_index chunk = Some 50%Z).
Proof.
  intros Hlen.
  assert (Hne : Np.find_peaks chunk <> []).
  { destruct (Np.find_peaks chunk); [simpl in Hlen; lia | discriminate]. }
  rewrite (interference_peak_index_some chunk Hne). split.
  2:{ intros ->. vm_compute. reflexivity. }
  destruct (sorted_candidates chunk) as (Hp & Hd & Hv). cbv zeta in Hp, Hd, Hv.
  pose proof (Permutation_length Hp) as Hl. rewrite candidates_length in Hl.
  destruct (Py.sorted_reverse height_lt (candidates chunk))
    as [|t1 [|t2 [|t3 rest]]] eqn:E; simpl in Hl; try lia.
  assert (Hnd : NoDup (map fst [t1; t2; t3])).
  { pose proof (candidates_positions_NoDup chunk) as Hall.
    apply (Permutation_NoDup (Permutation_map fst Hp)) in Hall.
    change (t1 :: t2 :: t3 :: rest) with ([t1; t2; t3] ++ rest) in Hall.
    rewrite map_app in Hall. exact (NoDup_app_remove_r _ _ Hall). }
  destruct (sorted_three_by_position Hnd) as (x & y & z & Hsort & Hp3 & Hpos).
  exists x, y, z. split; [|split; [exact Hpos|]].
  - exists rest. split.
    + rewrite Hp. apply (Permutation_app_tail rest Hp3).
    + assert (Hrest : Forall (fun t => forall q, In q rest -> height_lt t q = false)
                        [x; y; z]).
      { eapply Permutation_Forall; [exact Hp3|].
        inversion Hd as [|? ? Hd1 H1]; subst.
        inversion Hd1 as [|? ? Hd2 H2]; subst.
        inversion Hd2 as [|? ? _ H3]; subst.
        inversion H1 as [|? ? _ H1']; subst. inversion H1' as [|? ? _ H1'']; subst.
        inversion H2 as [|? ? _ H2']; subst.
        rewrite Forall_forall in H1'', H2', H3.
        repeat constructor; assumption. }
      assert (Hv3 : Forall valid_height [x; y; z]).
      { eapply Permutation_Forall; [exact Hp3|].
        inversion Hv as [|? ? ? Hv1]; subst. inversion Hv1 as [|? ? ? Hv2]; subst.
        inversion Hv2; subst. repeat constructor; assumption. }
      assert (Hvr : Forall valid_height rest).
      { inversion Hv as [|? ? ? Hv1]; subst. inversion Hv1 as [|? ? ? Hv2]; subst.
        inversion Hv2; subst. assumption. }
      rewrite Forall_forall in Hrest, Hv3, Hvr. apply Forall_forall. intros q Hq.
      repeat split; apply not_higher_of_height_lt;
        auto using in_eq, in_cons.
  - f_equal. unfold select_index.
    replace (length (t1 :: t2 :: t3 :: rest) <? 3) with false
      by (symmetry; apply Nat.ltb_ge; simpl; lia).
    cbn [firstn]. rewrite Hsort. reflexivity.
Qed.

Lemma peak_selector_top3_median_witness :
  3 <= length (Np.find_peaks synthetic_window) /\
  candidates synthetic_window = [(5%Z, 3%float); (50%Z, 9%float); (95%Z, 1%float)] /\
  interference_peak_index synthetic_window = Some 50%Z.
Proof.
  assert (H : 3 <= length (Np.find_peaks synthetic_window)) by (vm_compute; lia).
  assert (E : candidates synthetic_window =
              [(5%Z, 3%float); (50%Z, 9%float); (95%Z, 1%float)])
    by (vm_compute; reflexivity).
  split; [exact H|]. split; [exact E|].
  exact (proj2 (peak_selector_top3_median synthetic_window H) E).
Defined.

(** ** Halving and flooring a number

    [int(x // 2)] is the floor of half the exact value of [x]: the float
    that [//] returns holds that integer exactly, so [int] gives it back. *)

Section FloorHalf.
Local Open Scope Z_scope.

Lemma digits2_size p : digits2_pos p = Pos.size p.
Proof. induction p; simpl; congruence. Qed.

Lemma digits2_iter_xO m k :
  Zpos (digits2_pos (Pos.iter xO m k)) = Zpos (digits2_pos m) + Zpos k.
Proof.
  induction k using Pos.peano_ind.
  - simpl. lia.
  - rewrite Pos.iter_succ. simpl digits2_pos. lia.
Qed.

Lemma iter_xO_value m k : Zpos (Pos.iter xO m k) = Zpos m * 2 ^ Zpos k.
Proof.
  induction k using Pos.peano_ind.
  - simpl. lia.
  - rewrite Pos.iter_succ, Pos2Z.inj_xO, IHk, Pos2Z.inj_succ, Z.pow_succ_r by lia. lia.
Qed.

Lemma size_le_Z m : 2 ^ Zpos (Pos.size m) <= 2 * Zpos m.
Proof.
  pose proof (Pos.size_le m) as Hs.
  apply Pos2Z.pos_le_pos in Hs. rewrite Pos2Z.inj_pow in Hs.
  exact Hs.
Qed.

Lemma digits2_bound m : Zpos m < 2 ^ 53 -> Zpos (digits2_pos m) <= 53.
Proof.
  intros H. rewrite digits2_size. pose proof (size_le_Z m) as Hs.
  destruct (Z.le_gt_cases (Zpos (Pos.size m)) 53) as [Hle|Hgt]; [exact Hle|].
  assert (H54 : 2 ^ 54 <= 2 ^ Zpos (Pos.size m)) by (apply Z.pow_le_mono_r; lia).
  change (2 ^ 54) with (2 * 2 ^ 53) in H54. lia.
Qed.

Lemma digits2_lower m : 2 ^ (Zpos (digits2_pos m) - 1) <= Zpos m.
Proof.
  rewrite digits2_size. pose proof (size_le_Z m) as Hs.
  replace (Zpos (Pos.size m)) with (Z.succ (Zpos (Pos.size m) - 1)) in Hs by lia.
  rewrite Z.pow_succ_r in Hs by lia. lia.
Qed.

Lemma digits2_upper m : Zpos m < 2 ^ Zpos (digits2_pos m).
Proof.
  rewrite digits2_size. pose proof (Pos.size_gt m) as Hs.
  apply Pos2Z.pos_lt_pos in Hs. rewrite Pos2Z.inj_pow in Hs. exact Hs.
Qed.

(** Rounding an integer of at most 53 bits to binary64 is exact. *)
Lemma binary_round_small s mx :
  Zpos (digits2_pos mx) <= 53 ->
  exists m' e',
    binary_round prec emax s mx 0 = S754_finite s m' e' /\
    valid_binary (S754_finite s m' e') = true /\
    e' <= 0 /\ Zpos m' = Zpos mx * 2 ^ (- e').
Proof.
  intros Hd. unfold binary_round.
  remember (Zpos (digits2_pos mx)) as d eqn:Hdd.
  assert (Hpos : 0 < d) by (subst d; lia).
  assert (Hfexp : forall x, x = d -> fexp prec emax x = d - 53).
  { intros x ->. unfold fexp, SpecFloat.emin, prec, emax. lia. }
  rewrite (Hfexp (d + 0)) by lia. unfold shl_align.
  destruct (Z.eq_dec d 53) as [E|NE].
  - replace (d - 53 - 0) with 0 by lia.
    exists mx, 0. split; [|split; [|split; [lia|simpl; lia]]].
    + unfold binary_round_aux, shr_fexp. simpl Zdigits2. rewrite <- Hdd.
      rewrite (Hfexp (d + 0)) by lia. replace (d - 53 - 0) with 0 by lia.
      cbn [shr shr_record_of_loc shr_m loc_of_shr_record round_nearest_even].
      simpl Zdigits2. rewrite <- Hdd.
      rewrite (Hfexp (d + 0)) by lia. replace (d - 53 - 0) with 0 by lia.
      reflexivity.
    + simpl. unfold bounded, canonical_mantissa. rewrite <- Hdd.
      rewrite (Hfexp (d + 0)) by lia. rewrite E. reflexivity.
  - assert (Hneg : d - 53 - 0 = Zneg (Z.to_pos (53 - d))).
    { rewrite <- Pos2Z.opp_pos, Z2Pos.id by lia. lia. }
    rewrite Hneg.
    set (k := Z.to_pos (53 - d)).
    assert (Hk : Zpos k = 53 - d) by (unfold k; rewrite Z2Pos.id; lia).
    exists (Pos.iter xO mx k), (d - 53).
    pose proof (digits2_iter_xO mx k) as Hdig. rewrite <- Hdd in Hdig.
    assert (Hf2 : forall x, x = 53 + (d - 53) -> fexp prec emax x - (d - 53) = 0).
    { intros x ->. unfold fexp, SpecFloat.emin, prec, emax. lia. }
    split; [|split; [|split; [lia|]]].
    + unfold binary_round_aux, shr_fexp. simpl Zdigits2. rewrite Hdig, Hk.
      rewrite Hf2 by lia.
      cbn [shr shr_record_of_loc shr_m loc_of_shr_record round_nearest_even].
      simpl Zdigits2. rewrite Hdig, Hk. rewrite Hf2 by lia.
      cbn [shr shr_record_of_loc shr_m].
      destruct (Z.leb_spec (d - 53) (emax - prec)); [reflexivity|].
      unfold emax, prec in *. lia.
    + simpl. unfold bounded, canonical_mantissa. rewrite Hdig, Hk.
      apply andb_true_intro. split.
      * apply Z.eqb_eq. specialize (Hf2 (d + (53 - d) + (d - 53))). lia.
      * apply Z.leb_le. unfold emax, prec. lia.
    + rewrite iter_xO_value, Hk. f_equal. f_equal. lia.
Qed.

Lemma iter_pos_nat {A : Type} (f : A -> A) n : forall x,
  SpecFloat.iter_pos f n x = Nat.iter (Pos.to_nat n) f x.
Proof.
  induction n as [n IH|n IH|]; intros x; simpl SpecFloat.iter_pos.
  - rewrite !IH, Pos2Nat.inj_xI. simpl Nat.iter.
    rewrite <- Nat.iter_succ_r. simpl Nat.iter.
    replace (Pos.to_nat n + (Pos.to_nat n + 0))%nat with (Pos.to_nat n + Pos.to_nat n)%nat by lia.
    rewrite Nat.iter_add. rewrite <- Nat.iter_succ_r. reflexivity.
  - rewrite !IH, Pos2Nat.inj_xO. simpl Nat.mul.
    replace (Pos.to_nat n + (Pos.to_nat n + 0))%nat with (Pos.to_nat n + Pos.to_nat n)%nat by lia.
    rewrite Nat.iter_add. reflexivity.
  - reflexivity.
Qed.

Lemma shr_1_iter_xO n : forall M,
  Nat.iter n shr_1 (Build_shr_record (Zpos (Nat.iter n xO M)) false false)
  = Build_shr_record (Zpos M) false false.
Proof.
  induction n as [|n IH]; intros M; [reflexivity|].
  rewrite Nat.iter_succ_r. simpl Nat.iter at 2. cbn [shr_1 orb]. apply IH.
Qed.

Lemma shr_iter_pos k M :
  SpecFloat.iter_pos shr_1 k (Build_shr_record (Zpos (Pos.iter xO M k)) false false)
  = Build_shr_record (Zpos M) false false.
Proof. rewrite iter_pos_nat, Pos2Nat.inj_iter. apply shr_1_iter_xO. Qed.

(** Rounding a 53-bit integer shifted left is exact. *)
Lemma binary_round_large s M k :
  Zpos (digits2_pos M) = 53 -> Zpos k <= 971 ->
  binary_round prec emax s (Pos.iter xO M k) 0 = S754_finite s M (Zpos k) /\
  valid_binary (S754_finite s M (Zpos k)) = true.
Proof.
  intros HM Hk.
  pose proof (digits2_iter_xO M k) as Hdig. rewrite HM in Hdig.
  assert (Hfexp : forall x, x = 53 + Zpos k -> fexp prec emax x = Zpos k).
  { intros x ->. unfold fexp, SpecFloat.emin, prec, emax. lia. }
  split.
  - unfold binary_round. rewrite Hdig, (Hfexp (53 + Zpos k + 0)) by lia.
    unfold shl_align. replace (Zpos k - 0) with (Zpos k) by lia.
    unfold binary_round_aux, shr_fexp. simpl Zdigits2.
    rewrite Hdig, (Hfexp (53 + Zpos k + 0)) by lia.
    replace (Zpos k - 0) with (Zpos k) by lia.
    cbn [shr shr_record_of_loc].
    rewrite shr_iter_pos.
    cbn [shr_m loc_of_shr_record round_nearest_even]. simpl Zdigits2.
    rewrite HM, (Hfexp (53 + (0 + Zpos k))) by lia.
    replace (Zpos k - (0 + Zpos k)) with 0 by lia.
    cbn [shr shr_record_of_loc shr_m].
    destruct (Z.leb_spec (0 + Zpos k) (emax - prec)); [reflexivity|].
    unfold emax, prec in *. lia.
  - simpl. unfold bounded, canonical_mantissa. rewrite HM.
    apply andb_true_intro. split.
    + apply Z.eqb_eq. apply Hfexp. reflexivity.
    + apply Z.leb_le. unfold emax, prec. lia.
Qed.

Lemma int_of_nearest_float_small z :
  Z.abs z < 2 ^ 53 -> Py.int_of_float (Py.nearest_float z) = Ok z.
Proof.
  intros Hz. destruct z as [|mx|mx]; [reflexivity| |].
  - destruct (@binary_round_small false mx (@digits2_bound mx Hz))
      as (m' & e' & Hr & Hv & He & Hm).
    unfold Py.int_of_float, Py.nearest_float. cbn [binary_normalize].
    rewrite Hr, (@Prim2SF_SF2Prim _ Hv). f_equal.
    rewrite Z.shiftl_div_pow2, Hm, Z.div_mul by lia. reflexivity.
  - destruct (@binary_round_small true mx (@digits2_bound mx Hz))
      as (m' & e' & Hr & Hv & He & Hm).
    unfold Py.int_of_float, Py.nearest_float. cbn [binary_normalize].
    rewrite Hr, (@Prim2SF_SF2Prim _ Hv). f_equal.
    rewrite Z.shiftl_div_pow2, Hm, Z.div_mul by lia. reflexivity.
Qed.

Lemma int_of_nearest_float_large (s : bool) M k :
  Zpos (digits2_pos M) = 53 -> Zpos k <= 971 ->
  let z := Zpos (Pos.iter xO M k) in
  Py.int_of_float (Py.nearest_float (if s then - z else z)) = Ok (if s then - z else z).
Proof.
  intros HM Hk z.
  destruct (@binary_round_large s M k HM Hk) as [Hr Hv].
  unfold Py.int_of_float, Py.nearest_float.
  assert (E : binary_normalize prec emax (if s then - z else z) 0 false
              = S754_finite s M (Zpos k)).
  { destruct s; exact Hr. }
  rewrite E, (@Prim2SF_SF2Prim _ Hv). f_equal.
  rewrite Z.shiftl_mul_pow2 by lia. unfold z. rewrite iter_xO_value.
  destruct s; reflexivity.
Qed.

(** [int(f // 2)] on a finite non-zero float [(-1)^s * m * 2^e]. *)
Lemma int_floordiv2_finite f s m e :
  Prim2SF f = S754_finite s m e ->
  Py.int (Py.floordiv2 (Py.PFloat f)) = Ok (Z.shiftl (signed s m) (e - 1)).
Proof.
  intros Hf. pose proof (Prim2SF_valid f) as Hv. rewrite Hf in Hv.
  simpl in Hv. unfold bounded, canonical_mantissa in Hv.
  apply andb_prop in Hv as [Hcan Hemax].
  apply Z.eqb_eq in Hcan. apply Z.leb_le in Hemax.
  unfold fexp, SpecFloat.emin, prec, emax in Hcan, Hemax.
  cbn [Py.int Py.floordiv2]. unfold Py.float_floordiv2. rewrite Hf.
  fold (signed s m).
  destruct (Z.le_gt_cases (e - 1) 0) as [Hle|Hgt].
  - apply int_of_nearest_float_small.
    pose proof (digits2_upper m) as Hup.
    assert (Hm : Zpos m < 2 ^ 53).
    { eapply Z.lt_le_trans; [exact Hup|]. apply Z.pow_le_mono_r; lia. }
    rewrite Z.shiftl_div_pow2 by lia.
    assert (Hpow : 0 < 2 ^ (- (e - 1))) by (apply Z.pow_pos_nonneg; lia).
    unfold signed. destruct s.
    + assert (Zneg m <= Zneg m / 2 ^ (- (e - 1)) <= 0).
      { split.
        - apply Z.div_le_lower_bound; [lia|]. nia.
        - apply Z.div_le_upper_bound; [lia|]. lia. }
      lia.
    + assert (0 <= Zpos m / 2 ^ (- (e - 1)) <= Zpos m).
      { split; [apply Z.div_pos; lia|]. apply Z.div_le_upper_bound; [lia|]. nia. }
      lia.
  - assert (HM : Zpos (digits2_pos m) = 53) by lia.
    set (k := Z.to_pos (e - 1)).
    assert (Hk : Zpos k = e - 1) by (unfold k; rewrite Z2Pos.id; lia).
    pose proof (@int_of_nearest_float_large s m k HM ltac:(lia)) as H.
    cbv zeta in H. rewrite iter_xO_value, Hk in H.
    rewrite Z.shiftl_mul_pow2 by lia.
    unfold signed. destruct s.
    + rewrite <- Pos2Z.opp_pos, Z.mul_opp_l. exact H.
    + exact H.
Qed.

Lemma Qfloor_unique (q : Q) (n : Z) :
  (inject_Z n <= q)%Q -> (q < inject_Z (n + 1))%Q -> Qfloor q = n.
Proof.
  intros Hle Hlt.
  pose proof (Qfloor_le q) as H1. pose proof (Qlt_floor q) as H2.
  assert (A : (inject_Z n < inject_Z (Qfloor q + 1))%Q) by (eapply Qle_lt_trans; eauto).
  assert (B : (inject_Z (Qfloor q) < inject_Z (n + 1))%Q) by (eapply Qle_lt_trans; eauto).
  rewrite <- Zlt_Qlt in A, B. lia.
Qed.

(** The floor of half of [M * 2^e]. *)
Lemma Qfloor_half_scaled (M e : Z) :
  Qfloor (inject_Z M * Qpower 2 e / 2)%Q = Z.shiftl M (e - 1).
Proof.
  destruct (Z.le_gt_cases 1 e) as [Hge|Hlt].
  - rewrite Z.shiftl_mul_pow2 by lia.
    assert (E : (inject_Z M * Qpower 2 e / 2 == inject_Z (M * 2 ^ (e - 1)))%Q).
    { replace e with ((e - 1) + 1) at 1 by lia.
      rewrite Qpower_plus by discriminate.
      rewrite inject_Z_mult. rewrite (Zpower_Qpower 2 (e - 1)) by lia.
      change (inject_Z 2) with 2%Q. change (2 ^ 1)%Q with 2%Q. field. }
    rewrite (@Qfloor_comp _ _ E). apply Qfloor_Z.
  - rewrite Z.shiftl_div_pow2 by lia.
    assert (Hpow : 0 < 2 ^ (- (e - 1))) by (apply Z.pow_pos_nonneg; lia).
    assert (E : (inject_Z M * Qpower 2 e / 2 == inject_Z M / inject_Z (2 ^ (- (e - 1))))%Q).
    { rewrite (Zpower_Qpower 2 (- (e - 1))) by lia. change (inject_Z 2) with 2%Q.
      replace (- (e - 1)) with (- e + 1) by lia.
      rewrite Qpower_plus by discriminate. rewrite Qpower_opp.
      change (2 ^ 1)%Q with 2%Q.
      assert (Hnz : ~ (2 ^ e == 0)%Q).
      { apply Qpower_not_0. discriminate. }
      field. exact Hnz. }
    rewrite (@Qfloor_comp _ _ E).
    set (D := 2 ^ (- (e - 1))) in *.
    assert (HD : (0 < inject_Z D)%Q) by (rewrite <- (Zlt_Qlt 0); exact Hpow).
    apply Qfloor_unique.
    + apply Qle_shift_div_l; [exact HD|]. rewrite <- inject_Z_mult, <- Zle_Qle.
      pose proof (Z.mul_div_le M D Hpow). lia.
    + apply Qlt_shift_div_r; [exact HD|]. rewrite <- inject_Z_mult, <- Zlt_Qlt.
      pose proof (Z.mul_succ_div_gt M D Hpow). lia.
Qed.

Lemma int_floordiv2_value (p : Py.num) :
  Py.int (Py.floordiv2 p) =
    match num_value p with
    | Some v => Ok (Qfloor (v / 2))
    | None => Raise ValueError
    end.
Proof.
  destruct p as [z|f]; cbn [num_value].
  - cbn [Py.floordiv2 Py.int]. f_equal.
    assert (E : (inject_Z z / 2 == inject_Z z * Qpower 2 0 / 2)%Q)
      by (change (Qpower 2 0) with 1%Q; field).
    rewrite (@Qfloor_comp _ _ E), Qfloor_half_scaled.
    rewrite Z.shiftl_div_pow2 by lia. reflexivity.
  - unfold float_value. destruct (Prim2SF f) as [s|s| |s m e] eqn:Hf.
    + cbn [Py.floordiv2 Py.int]. unfold Py.float_floordiv2, Py.int_of_float.
      rewrite Hf, Hf. reflexivity.
    + cbn [Py.floordiv2 Py.int]. unfold Py.float_floordiv2. rewrite Hf. reflexivity.
    + cbn [Py.floordiv2 Py.int]. unfold Py.float_floordiv2. rewrite Hf. reflexivity.
    + rewrite (@int_floordiv2_finite f s m e Hf), Qfloor_half_scaled. reflexivity.
Qed.

End FloorHalf.

(** ** The Gaussian sub-window *)

Lemma interference_peak_index_nonempty chunk idx :
  interference_peak_index chunk = Some idx -> length chunk <> 0.
Proof. destruct chunk; [discriminate | simpl; lia]. Qed.

Lemma slice_length (chunk : list float) (low high : Z) :
  (0 <= low)%Z -> (low <= high)%Z -> (high <= Z.of_nat (length chunk))%Z ->
  Z.of_nat (length (Py.slice chunk (Z.to_nat low) (Z.to_nat high))) = (high - low)%Z.
Proof.
  intros H0 Hle Hh. unfold Py.slice. rewrite length_firstn, length_skipn. lia.
Qed.



(** The half width on a few settings: an int product, a float product
    that is halved and floored, and a negative product, which is raised to
    one. *)
Example delay_samples_values :
  delay_samples {| sampling_rate := Py.PInt 7; period := Py.PInt 1;
                   delay := Py.PInt 3 |} = Ok 10%Z /\
  delay_samples {| sampling_rate := Py.PInt 7; period := Py.PInt 1;
                   delay := Py.PFloat 0.75 |} = Ok 2%Z /\
  delay_samples {| sampling_rate := Py.PInt 7; period := Py.PInt 1;
                   delay := Py.PFloat (-0.75) |} = Ok 1%Z /\
  delay_samples {| sampling_rate := Py.PFloat infinity; period := Py.PInt 1;
                   delay := Py.PFloat 0.75 |} = Raise ValueError.
Proof. repeat split; vm_compute; reflexivity. Qed.

(** ** numpy's sum adds its addends up *)

Lemma fold_add_adds_up (a l0 : list float) (init : float) :
  adds_up l0 init -> adds_up (l0 ++ a) (fold_left add a init).
Proof.
  revert l0 init. induction a as [|v a IH]; intros l0 init H; cbn [fold_left].
  - rewrite app_nil_r. exact H.
  - replace (l0 ++ v :: a) with ((l0 ++ [v]) ++ a) by (rewrite <- app_assoc; reflexivity).
    apply IH. apply adds_plus; [exact H | apply adds_one].
Qed.

(** One more block of eight on the eight running sums. *)
Lemma add8_adds_up (cols : list (list float)) (r : list float) :
  Forall2 adds_up cols r ->
  forall block, length block = length r ->
  let cols' := map (fun cb => fst cb ++ [snd cb]) (combine cols block) in
  Forall2 adds_up cols' (Np.add8 r block)
  /\ Permutation (concat cols') (concat cols ++ block).
Proof.
  induction 1 as [|c v cols r Hc Hrest IH]; intros block Hlen cols'.
  - destruct block; [|discriminate]. subst cols'. split; [constructor | reflexivity].
  - destruct block as [|b block]; [discriminate|]. injection Hlen as Hlen.
    destruct (IH block Hlen) as [IH1 IH2]. subst cols'.
    cbn [combine map Np.add8 fst snd concat]. split.
    + constructor; [apply adds_plus; [exact Hc | apply adds_one] | exact IH1].
    + rewrite IH2, <- !app_assoc. apply Permutation_app_head.
      cbn [app]. apply Permutation_middle.
Qed.

Lemma firstn_slice (A : Type) (a : list A) i n :
  firstn (i + n) a = firstn i a ++ Py.slice a i (i + n).
Proof.
  rewrite slice_skipn. revert a. induction i as [|i IH]; intros a; [reflexivity|].
  destruct a as [|v a]; cbn [Nat.add firstn skipn app].
  - rewrite firstn_nil. reflexivity.
  - f_equal. apply IH.
Qed.

(** The running sums after the blocks from offset [i] up to [full]. *)
Lemma blocks_add_up (a : list float) (full : nat) :
  full <= length a ->
  forall fuel i r cols,
    i <= full -> (exists q, full = i + 8 * q /\ q <= fuel) ->
    Forall2 adds_up cols r -> length r = 8 ->
    Permutation (concat cols) (firstn i a) ->
    exists cols' r',
      fold_left (fun r i => Np.add8 r (Py.slice a i (i + 8)))
                (Py.range_from fuel i full 8) r = r'
      /\ length r' = 8
      /\ Forall2 adds_up cols' r'
      /\ Permutation (concat cols') (firstn full a).
Proof.
  intros Hfull. induction fuel as [|fuel IH]; intros i r cols Hi (q & Hq & Hqf) Hcols Hr Hperm.
  - assert (i = full) by lia. subst i. exists cols, r. repeat split; assumption.
  - cbn [Py.range_from]. destruct (Nat.ltb_spec i full) as [Hlt|Hge].
    + cbn [fold_left].
      assert (Hb : length (Py.slice a i (i + 8)) = 8).
      { rewrite slice_skipn, length_firstn, length_skipn. lia. }
      destruct (@add8_adds_up cols r Hcols (Py.slice a i (i + 8))) as [H1 H2]; [lia|].
      eapply (IH (i + 8)); [lia | exists (q - 1); lia | exact H1 | |].
      * unfold Np.add8. rewrite length_map, length_combine. lia.
      * rewrite H2, firstn_slice. apply Permutation_app_tail. exact Hperm.
    + assert (i = full) by lia. subst i. exists cols, r. repeat split; assumption.
Qed.

Lemma singletons_add_up (l : list float) :
  Forall2 adds_up (map (fun v => [v]) l) l /\ concat (map (fun v => [v]) l) = l.
Proof.
  induction l as [|v l [IH1 IH2]]; cbn [map concat]; split;
    [constructor | reflexivity | constructor; [apply adds_one | exact IH1] |].
  cbn [app]. f_equal. exact IH2.
Qed.

Lemma block_sum_adds_up (a : list float) :
  8 <= length a -> adds_up a (Np.block_sum a).
Proof.
  intros Hn. unfold Np.block_sum.
  set (n := length a). set (full := n - n mod 8).
  assert (Hmod : n mod 8 < 8) by (apply Nat.mod_upper_bound; lia).
  assert (Hdiv : n = 8 * (n / 8) + n mod 8) by (apply Nat.div_mod_eq).
  assert (Hfull : full <= length a) by (subst full n; lia).
  destruct (singletons_add_up (firstn 8 a)) as [Hs1 Hs2].
  destruct (@blocks_add_up a full Hfull n 8 (firstn 8 a)
              (map (fun v => [v]) (firstn 8 a))) as (cols & r & -> & Hr & Hcols & Hperm).
  - subst full. lia.
  - exists (n / 8 - 1). subst full. split; [lia|].
    assert (n / 8 <= n) by (apply Nat.Div0.div_le_upper_bound; lia). lia.
  - exact Hs1.
  - rewrite length_firstn. lia.
  - rewrite Hs2. reflexivity.
  - rewrite <- (firstn_skipn full a) at 1.
    apply fold_add_adds_up.
    apply (adds_perm Hperm).
    destruct r as [|r0 [|r1 [|r2 [|r3 [|r4 [|r5 [|r6 [|r7 [|r8 r]]]]]]]]];
      try discriminate.
    repeat match goal with
           | H : Forall2 adds_up _ (_ :: _) |- _ => inversion H; subst; clear H
           | H : Forall2 adds_up _ [] |- _ => inversion H; subst; clear H
           end.
    cbn [concat]. rewrite app_nil_r.
    match goal with
    | |- adds_up (?c0 ++ ?c1 ++ ?c2 ++ ?c3 ++ ?c4 ++ ?c5 ++ ?c6 ++ ?c7) _ =>
        replace (c0 ++ c1 ++ c2 ++ c3 ++ c4 ++ c5 ++ c6 ++ c7)
          with (((c0 ++ c1) ++ (c2 ++ c3)) ++ ((c4 ++ c5) ++ (c6 ++ c7)))
          by (rewrite <- !app_assoc; reflexivity)
    end.
    repeat apply adds_plus; assumption.
Qed.

Lemma pairwise_sum_adds_up (fuel : nat) : forall a : list float,
  adds_up a (Np.pairwise_sum fuel a).
Proof.
  induction fuel as [|fuel IH]; intros a; cbn [Np.pairwise_sum].
  - destruct (Nat.ltb_spec (length a) 8) as [Hlt|Hge].
    + apply (@fold_add_adds_up a [] neg_zero). apply adds_zero. reflexivity.
    + destruct (length a <=? 128); apply block_sum_adds_up; exact Hge.
  - destruct (Nat.ltb_spec (length a) 8) as [Hlt|Hge].
    + apply (@fold_add_adds_up a [] neg_zero). apply adds_zero. reflexivity.
    + destruct (length a <=? 128); [apply block_sum_adds_up; exact Hge|].
      rewrite <- (firstn_skipn (length a / 2 - (length a / 2) mod 8) a) at 1.
      apply adds_plus; apply IH.
Qed.

Lemma zero_plus_not_neg_zero (y : float) : Prim2SF (0 + y)%float <> S754_zero true.
Proof.
  rewrite add_spec. change (Prim2SF 0%float) with (S754_zero false).
  destruct (Prim2SF y) as [s|s| |s m e]; cbn; try discriminate.
  destruct s; discriminate.
Qed.

(** [np.sum] adds up the elements of its array. *)
Lemma sum_adds_up (x : list float) : adds_up x (Np.sum x).
Proof.
  unfold Np.sum. apply (@adds_plus [] x).
  - apply adds_zero. reflexivity.
  - apply pairwise_sum_adds_up.
Qed.

(** ** The amplitude aggregate *)

(** C6.  No amplitude gives [(NaN, NaN)].  At least one amplitude gives the
    population statistics: the mean is the amplitudes added up, over their
    count [n], and the standard deviation is the square root of the
    squared deviations from that mean added up, over the same [n]; a sum
    starts from [0.0], so that it is never a negative zero.  The
    amplitudes 1.0 and 3.0 give exactly [(2.0, 1.0)], and two amplitudes
    [-0.0] give [(0.0, 0.0)].  This aggregate of the amplitudes collected
    over the windows is what [interference_voltage_estimation] returns. *)
Theorem aggregate_population_statistics :
  aggregate [] = (nan, nan) /\
  (forall heights : list float,
     heights <> [] ->
     let n := Py.nearest_float (Z.of_nat (length heights)) in
     exists total squares : float,
       let m := (total / n)%float in
       adds_up heights total /\
       Prim2SF total <> S754_zero true /\
       adds_up (map (fun v => ((v - m) * (v - m))%float) heights) squares /\
       Prim2SF squares <> S754_zero true /\
       aggregate heights = (m, sqrt (squares / n)%float)) /\
  aggregate [1; 3]%float = (2, 1)%float /\
  aggregate [neg_zero; neg_zero] = (0, 0)%float /\
  (forall (curve_fit : gaussian_fit) (st : Settings) (voltages : list float)
          (n d : Z) (chunks : list (list float)) (heights : list float),
     sampling_period st = Ok n ->
     windows voltages n = Ok chunks ->
     delay_samples st = Ok d ->
     chunk_heights curve_fit d chunks [] = Ok heights ->
     interference_voltage_estimation curve_fit st voltages = Ok (aggregate heights)).
Proof.
  split; [reflexivity|].
  split; [|split; [vm_compute; reflexivity|split; [vm_compute; reflexivity|]]].
  - intros heights Hne n.
    exists (Np.sum heights).
    exists (Np.sum (map (fun v => ((v - Np.sum heights / n) * (v - Np.sum heights / n))%float)
                        heights)).
    cbv zeta. split; [apply sum_adds_up|].
    split; [apply zero_plus_not_neg_zero|]. split; [apply sum_adds_up|].
    split; [apply zero_plus_not_neg_zero|].
    unfold aggregate. destruct heights as [|h hs]; [congruence|].
    cbn [length Nat.eqb]. unfold Np.std, Np.mean, Np.size. rewrite map_map. reflexivity.
  - intros curve_fit st voltages n d chunks heights Hn Hw Hd Hh.
    unfold interference_voltage_estimation.
    rewrite Hn. cbn [bind]. rewrite Hw. cbn [bind]. rewrite Hd. cbn [bind].
    rewrite Hh. reflexivity.
Qed.

(** ** The fitted visibility *)

(** C8.  For fitted parameters [(A, B, k, phi)] the visibility is
    [B / (2A + B)] when [2A + B] does not compare equal to zero, and NaN
    when it does; it is the value printed after a successful fit. *)
Theorem visibility_of_fit (A B k phi : float) :
  ((2 * A + B =? 0)%float = false ->
   visibility (A, B, k, phi) = (B / (2 * A + B))%float) /\
  ((2 * A + B =? 0)%float = true ->
   visibility (A, B, k, phi) = nan) /\
  (forall (curve_fit : cos2_fit) (temps means : list float) (call : cos2_fit_call),
     fit_inputs temps means = Ok call ->
     curve_fit call = Ok (A, B, k, phi) ->
     hd_error (fit_and_report curve_fit temps means) =
       Some (FittedVisibility (visibility (A, B, k, phi)))).
Proof.
  split; [|split].
  - intros E. unfold visibility. rewrite E. reflexivity.
  - intros E. unfold visibility. rewrite E. reflexivity.
  - intros curve_fit temps means call Hcall Hfit. unfold fit_and_report.
    rewrite Hcall. cbn [bind]. rewrite Hfit. reflexivity.
Qed.

(** ** The settle-wait loop *)

Section SettleWait.
Variable poll : nat -> float.
Variables target tolerance : float.

Local Abbreviation bad k := (out_of_tolerance target tolerance (poll k) = true).
Local Abbreviation good k := (out_of_tolerance target tolerance (poll k) = false).
Local Abbreviation inner := (fun fuel => wait_in_tolerance fuel poll target tolerance).
Local Abbreviation outer := (fun fuel => settle_loop fuel poll target tolerance).
Local Abbreviation settled := (passed_at poll target tolerance).

Local Abbreviation run_length := (run_length poll target tolerance).

Lemma inner_inv fuel : forall i count i' count',
  inner fuel i count = Some (i', count') ->
  exists j, i' = S j /\ i <= j /\ good j /\
            (forall k, i <= k < j -> bad k) /\
            count' = if j =? i then count else 0.
Proof.
  induction fuel as [|fuel IH]; intros i count i' count' H; simpl in H; [discriminate|].
  destruct (out_of_tolerance target tolerance (poll i)) eqn:E.
  - apply IH in H. destruct H as (j & -> & Hij & Hg & Hbad & ->).
    exists j. split; [reflexivity|]. split; [lia|]. split; [exact Hg|]. split.
    + intros k Hk. destruct (Nat.eq_dec k i) as [->|Hne]; [exact E | apply Hbad; lia].
    + destruct (Nat.eqb_spec j i); [lia|]. destruct (j =? S i); reflexivity.
  - inversion H; subst. exists i. split; [reflexivity|]. split; [lia|].
    split; [exact E|]. split; [intros k Hk; lia|]. rewrite Nat.eqb_refl. reflexivity.
Qed.

Lemma inner_progress fuel : forall i count g,
  good g -> i <= g -> g - i < fuel ->
  exists j count', j <= g /\ inner fuel i count = Some (S j, count').
Proof.
  induction fuel as [|fuel IH]; intros i count g Hg Hi Hf; [lia|]. simpl.
  destruct (out_of_tolerance target tolerance (poll i)) eqn:E.
  - assert (i <> g) by (intros ->; congruence).
    apply (IH (S i) 0 g Hg); lia.
  - exists i, count. split; [lia | reflexivity].
Qed.

Lemma run_length_not_settled i count :
  run_length i count -> count < 3 -> ~ settled i.
Proof.
  intros (Hle & Hgood & Hbad) Hc [H3 Hall].
  assert (Hlt : count < i) by lia.
  specialize (Hbad Hlt). rewrite Hall in Hbad by lia. discriminate.
Qed.

Lemma run_length_step i count j :
  run_length i count -> i <= j -> good j -> (forall k, i <= k < j -> bad k) ->
  run_length (S j) ((if j =? i then count else 0) + 1).
Proof.
  intros (Hle & Hgood & Hbad) Hij Hg Hb.
  destruct (Nat.eqb_spec j i) as [->|Hne].
  - split; [lia|]. split.
    + intros k Hk. destruct (Nat.eq_dec k i) as [->|?]; [exact Hg | apply Hgood; lia].
    + intros Hlt. replace (S i - (count + 1) - 1) with (i - count - 1) by lia.
      apply Hbad. lia.
  - split; [lia|]. split.
    + intros k Hk. replace k with j by lia. exact Hg.
    + intros _. replace (S j - (0 + 1) - 1) with (j - 1) by lia. apply Hb. lia.
Qed.

Lemma outer_sound fuel : forall i count n,
  run_length i count -> count <= 3 ->
  (forall m, m < i -> ~ settled m) ->
  outer fuel i count = Some n ->
  settled n /\ forall m, m < n -> ~ settled m.
Proof.
  induction fuel as [|fuel IH]; intros i count n Hrun Hc Hearly H.
  - simpl in H. destruct (Nat.ltb_spec count 3); [discriminate|].
    inversion H; subst. destruct Hrun as (Hle & Hgood & _).
    split; [|exact Hearly]. split; [lia|]. intros k Hk. apply Hgood. lia.
  - cbn [settle_loop] in H. destruct (Nat.ltb_spec count 3) as [Hlt|Hge].
    + destruct (wait_in_tolerance (S fuel) poll target tolerance i count)
        as [[i' count']|] eqn:E; [|discriminate].
      apply inner_inv in E. destruct E as (j & -> & Hij & Hg & Hb & ->).
      apply IH in H; [exact H | apply run_length_step; assumption | | ].
      * destruct (j =? i); lia.
      * intros m Hm [H3 Hall].
        destruct (Nat.lt_ge_cases m i) as [Hmi|Hmi]; [exact (Hearly m Hmi (conj H3 Hall))|].
        destruct (Nat.eq_dec m i) as [->|Hne].
        -- exact (run_length_not_settled Hrun Hlt (conj H3 Hall)).
        -- assert (Hbad : bad (m - 1)) by (apply Hb; lia).
           rewrite Hall in Hbad by lia. discriminate.
    + inversion H; subst. destruct Hrun as (Hle & Hgood & _).
      split; [|exact Hearly]. split; [lia|]. intros k Hk. apply Hgood. lia.
Qed.

Lemma outer_progress fuel : forall i count n,
  run_length i count -> count <= 3 -> i <= n -> settled n -> n - i < fuel ->
  exists n', n' <= n /\ outer fuel i count = Some n'.
Proof.
  induction fuel as [|fuel IH]; intros i count n Hrun Hc Hin Hn Hf; [lia|].
  cbn [settle_loop]. destruct (Nat.ltb_spec count 3) as [Hlt|Hge].
  - assert (Hne : i <> n).
    { intros ->. exact (run_length_not_settled Hrun Hlt Hn). }
    assert (Hg : good (n - 1)) by (destruct Hn as [H3 Hall]; apply Hall; lia).
    destruct (@inner_progress (S fuel) i count (n - 1) Hg) as (j & count' & Hj & E);
      [lia | lia |].
    rewrite E. pose proof (inner_inv _ _ _ E) as (j' & Ej & Hij & Hgj & Hb & ->).
    injection Ej as <-.
    apply (IH (S j) _ n); [apply run_length_step; assumption | | lia | exact Hn | lia].
    destruct (j =? i); lia.
  - exists i. split; [lia | reflexivity].
Qed.

Lemma run_length_start : run_length 0 0.
Proof. split; [lia|]. split; intros; lia. Qed.

End SettleWait.

(** [set_and_wait] returns when three consecutive readings have been let
    through by the loop test, at the first reading where that holds, and
    on no other readings. *)
Lemma set_and_wait_passed (poll : nat -> float) (target tolerance : float) :
  (forall fuel n,
     set_and_wait fuel poll target tolerance = Some n ->
     passed_at poll target tolerance n /\
     forall m, m < n -> ~ passed_at poll target tolerance m) /\
  (forall n,
     passed_at poll target tolerance n ->
     exists fuel n', n' <= n /\ set_and_wait fuel poll target tolerance = Some n') /\
  ((forall n, ~ passed_at poll target tolerance n) ->
   forall fuel, set_and_wait fuel poll target tolerance = None).
Proof.
  assert (Hsound : forall fuel n,
             set_and_wait fuel poll target tolerance = Some n ->
             passed_at poll target tolerance n /\
             forall m, m < n -> ~ passed_at poll target tolerance m).
  { intros fuel n H. unfold set_and_wait in H.
    apply (@outer_sound poll target tolerance fuel 0 0 n
             (run_length_start poll target tolerance)) in H;
      [exact H | lia | intros m Hm; lia]. }
  split; [exact Hsound|]. split.
  - intros n Hn. exists (S n).
    apply (@outer_progress poll target tolerance (S n) 0 0 n
             (run_length_start poll target tolerance)); [lia | lia | exact Hn | lia].
  - intros Hnever fuel.
    destruct (set_and_wait fuel poll target tolerance) as [n|] eqn:E; [|reflexivity].
    destruct (Hsound fuel n E) as [Hn _]. destruct (Hnever n Hn).
Qed.

(** On readings that compare, the loop lets a reading through exactly
    when its deviation is within tolerance. *)
Lemma passed_iff_settled (poll : nat -> float) (target tolerance : float) (n : nat) :
  comparable poll target tolerance ->
  passed_at poll target tolerance n <-> settled_at poll target tolerance n.
Proof.
  intros [Htol Hdev]. unfold passed_at, settled_at, out_of_tolerance, in_tolerance.
  split; intros [H3 Hall]; (split; [exact H3|]); intros k Hk; specialize (Hall k Hk).
  - rewrite (leb_negb_ltb _ _ (Hdev k) Htol), Hall. reflexivity.
  - rewrite (leb_negb_ltb _ _ (Hdev k) Htol) in Hall.
    destruct (tolerance <? abs (poll k - target))%float; [discriminate | reflexivity].
Qed.




(** ** The report of [main] *)

Lemma main_nonempty (errorbar : pyplot) (curve_fit : cos2_fit) (bha : Sweep) :
  temperature bha <> [] ->
  length (temperature bha) = length (mean bha) ->
  errorbar bha = Ok tt ->
  main errorbar curve_fit bha =
    Ok match fit_attempt curve_fit bha with
       | Raise e => [FitFailed e]
       | Ok popt =>
           FittedVisibility (visibility popt) ::
           match raw_visibility (mean bha) with
           | Ok raw => [RawVisibility raw]
           | Raise e => [FitFailed e]
           end
       end.
Proof.
  intros Hne Hlen Hbar. unfold main, scatter. rewrite Hlen, Nat.eqb_refl, <- Hlen.
  destruct (temperature bha) eqn:E; [congruence|].
  cbn [length Nat.eqb bind]. rewrite Hbar. cbn [bind].
  unfold fit_and_report, fit_attempt. rewrite E. reflexivity.
Qed.

(** C1, as stated, fails: on the three-setpoint sweep with a fit that does
    not converge, the raw visibility 0.5 of the stored means is not
    reported. *)
Lemma raw_visibility_not_reported_on_failure :
  raw_visibility (mean sample_sweep) = Ok 0.5%float /\
  main drawing failing_fit sample_sweep = Ok [FitFailed RuntimeError] /\
  ~ reports_raw_on_failure drawing failing_fit sample_sweep.
Proof.
  assert (Hraw : raw_visibility (mean sample_sweep) = Ok 0.5%float)
    by (vm_compute; reflexivity).
  assert (Hmain : main drawing failing_fit sample_sweep = Ok [FitFailed RuntimeError])
    by (vm_compute; reflexivity).
  split; [exact Hraw|]. split; [exact Hmain|].
  intros Hclaim. destruct (Hclaim RuntimeError) as (lines & Hl & _ & _ & raw & _ & Hin).
  - vm_compute. reflexivity.
  - rewrite Hmain in Hl. injection Hl as <-. destruct Hin as [Hin|[]]. discriminate.
Qed.

(** C1, amended.  On a non-empty stored sweep whose temperatures and means
    are as many, so that [plt.scatter] takes them, and on which the
    plotting calls before the [try] return, a fit that raises makes
    [main] print the failure line and nothing else: no fitted visibility
    and no raw visibility.  The raw visibility is printed only after the
    fit has returned an optimum, and it is then the raw visibility of the
    stored means, printed after the fitted one. *)
Theorem fit_failure_reports_only_failure
        (errorbar : pyplot) (curve_fit : cos2_fit) (bha : Sweep) :
  temperature bha <> [] ->
  length (temperature bha) = length (mean bha) ->
  errorbar bha = Ok tt ->
  (forall e, fit_attempt curve_fit bha = Raise e ->
             main errorbar curve_fit bha = Ok [FitFailed e]) /\
  (forall lines raw,
     main errorbar curve_fit bha = Ok lines ->
     In (RawVisibility raw) lines ->
     exists popt, fit_attempt curve_fit bha = Ok popt /\
                  raw_visibility (mean bha) = Ok raw) /\
  (forall popt raw,
     fit_attempt curve_fit bha = Ok popt ->
     raw_visibility (mean bha) = Ok raw ->
     main errorbar curve_fit bha
     = Ok [FittedVisibility (visibility popt); RawVisibility raw]).
Proof.
  intros Hne Hlen Hbar. rewrite (@main_nonempty errorbar curve_fit bha Hne Hlen Hbar).
  split; [|split].
  - intros e ->. reflexivity.
  - intros lines raw Hl Hin. injection Hl as <-.
    destruct (fit_attempt curve_fit bha) as [popt|e].
    + exists popt. split; [reflexivity|].
      destruct Hin as [Hin|Hin]; [discriminate|].
      destruct (raw_visibility (mean bha)) as [raw'|e'].
      * destruct Hin as [Hin|[]]. congruence.
      * destruct Hin as [Hin|[]]. discriminate.
    + destruct Hin as [Hin|[]]. discriminate.
  - intros popt raw -> ->. reflexivity.
Qed.

Lemma fit_failure_reports_only_failure_witness :
  temperature sample_sweep <> [] /\
  length (temperature sample_sweep) = length (mean sample_sweep) /\
  fit_attempt failing_fit sample_sweep = Raise RuntimeError /\
  main drawing failing_fit sample_sweep = Ok [FitFailed RuntimeError].
Proof.
  assert (Hne : temperature sample_sweep <> []) by (vm_compute; discriminate).
  assert (Hlen : length (temperature sample_sweep) = length (mean sample_sweep))
    by reflexivity.
  assert (Hfail : fit_attempt failing_fit sample_sweep = Raise RuntimeError)
    by (vm_compute; reflexivity).
  split; [exact Hne|]. split; [exact Hlen|]. split; [exact Hfail|].
  exact (proj1 (@fit_failure_reports_only_failure drawing failing_fit sample_sweep
                  Hne Hlen eq_refl)
               RuntimeError Hfail).
Defined.

(** C2, on the code.  Nothing is excluded before the fit: the arrays handed
    to [curve_fit] are the stored ones.  On the sweep whose second
    setpoint has a NaN mean, [curve_fit] is called with that NaN mean
    among its data, and with an initial guess whose offset is NaN. *)
Theorem fit_inputs_keep_nan_means :
  (forall temps means call,
     fit_inputs temps means = Ok call ->
     temps_arr call = temps /\ means_arr call = means) /\
  exists call,
    fit_inputs (temperature sweep_with_gap) (mean sweep_with_gap) = Ok call /\
    means_arr call = [1; nan; 3]%float /\
    existsb is_nan (means_arr call) = true /\
    fst (fst (fst (guess call))) = nan /\
    forall curve_fit : cos2_fit,
      fit_attempt curve_fit sweep_with_gap = curve_fit call.
Proof.
  split.
  - intros temps means call H. unfold fit_inputs in H.
    destruct (initial_guess temps means) as [g|e]; [|discriminate].
    inversion H; subst. split; reflexivity.
  - assert (E : exists call,
               fit_inputs (temperature sweep_with_gap) (mean sweep_with_gap) = Ok call /\
               means_arr call = [1; nan; 3]%float /\
               fst (fst (fst (guess call))) = nan).
    { eexists. split; [vm_compute; reflexivity|]. split; reflexivity. }
    destruct E as (call & Hcall & Hmeans & Hguess). exists call.
    split; [exact Hcall|]. split; [exact Hmeans|].
    split; [rewrite Hmeans; reflexivity|]. split; [exact Hguess|].
    intros curve_fit. unfold fit_attempt. rewrite Hcall. reflexivity.
Qed.

(** ** More on the selected peak *)

Lemma SFleb_of_ltb a b : SFltb a b = true -> SFleb a b = true.
Proof.
  unfold SFltb, SFleb. destruct (SFcompare a b) as [[]|]; congruence.
Qed.

Lemma SFleb_of_eqb a b c :
  SFeqb a c = true -> SFeqb b c = true -> SFleb a b = true.
Proof.
  unfold SFeqb, SFleb, SFcompare.
  destruct a as [[]|[]| |[] ma ea], b as [[]|[]| |[] mb eb], c as [[]|[]| |[] mc ec];
    try reflexivity; try discriminate; intros H1 H2; sf_cases.
Qed.

Lemma SFleb_of_ltb_eqb a b c :
  SFltb a c = true -> SFeqb b c = true -> SFleb a b = true.
Proof.
  unfold SFltb, SFeqb, SFleb, SFcompare.
  destruct a as [[]|[]| |[] ma ea], b as [[]|[]| |[] mb eb], c as [[]|[]| |[] mc ec];
    try reflexivity; try discriminate; intros H1 H2; sf_cases.
Qed.

Lemma leb_of_eqb (a b c : float) :
  (a =? c)%float = true -> (b =? c)%float = true -> (a <=? b)%float = true.
Proof.
  rewrite !FloatAxioms.eqb_spec, FloatAxioms.leb_spec. apply SFleb_of_eqb.
Qed.

Lemma leb_of_ltb_eqb (a b c : float) :
  (a <? c)%float = true -> (b =? c)%float = true -> (a <=? b)%float = true.
Proof.
  rewrite FloatAxioms.ltb_spec, FloatAxioms.eqb_spec, FloatAxioms.leb_spec.
  apply SFleb_of_ltb_eqb.
Qed.

Lemma eqb_refl_not_nan (a : float) : is_nan a = false -> (a =? a)%float = true.
Proof. unfold is_nan. destruct (a =? a)%float; [reflexivity | discriminate]. Qed.

Lemma plateau_end_le x xi i_max fuel : forall i_ahead,
  i_ahead <= i_max -> Np.plateau_end fuel x xi i_ahead i_max <= i_max.
Proof.
  induction fuel as [|fuel IH]; intros i_ahead H; simpl; [exact H|].
  destruct (Nat.ltb_spec i_ahead i_max); simpl; [|exact H].
  destruct (Np.get x i_ahead =? xi)%float; [apply IH; lia | exact H].
Qed.

(** Every peak lies before [i_max] and is not lower than either of its
    neighbours. *)
Lemma local_maxima_from_sound x i_max fuel : forall i,
  1 <= i ->
  Forall (fun p => i <= p < i_max /\
                   (Np.get x (p - 1) <=? Np.get x p)%float = true /\
                   (Np.get x (p + 1) <=? Np.get x p)%float = true)
         (Np.local_maxima_from fuel x i i_max).
Proof.
  induction fuel as [|fuel IH]; intros i Hi; cbn [Np.local_maxima_from].
  - constructor.
  - destruct (Nat.ltb_spec i i_max) as [Hlt|Hge]; [|constructor].
    assert (Hnext : forall j, i <= j ->
              Forall (fun p => i <= p < i_max /\
                        (Np.get x (p - 1) <=? Np.get x p)%float = true /\
                        (Np.get x (p + 1) <=? Np.get x p)%float = true)
                     (Np.local_maxima_from fuel x j i_max)).
    { intros j Hj. eapply Forall_impl; [|apply (IH j); lia].
      cbv beta. intros p (Hp & H1 & H2). repeat split; try assumption; lia. }
    destruct (Np.get x (i - 1) <? Np.get x i)%float eqn:Hrise; [|apply Hnext; lia].
    set (i_ahead := Np.plateau_end (length x) x (Np.get x i) (i + 1) i_max).
    destruct (Np.get x i_ahead <? Np.get x i)%float eqn:Hfall; [|apply Hnext; lia].
    destruct (plateau_end_spec x (Np.get x i) i_max (length x) (i + 1)) as [Hle Heq].
    pose proof (@plateau_end_le x (Np.get x i) i_max (length x) (i + 1) ltac:(lia)) as Hmax.
    fold i_ahead in Hle, Heq, Hmax.
    assert (Hmid : i <= (i + (i_ahead - 1)) / 2 < i_ahead).
    { split.
      - apply Nat.div_le_lower_bound; lia.
      - apply Nat.Div0.div_lt_upper_bound; lia. }
    set (mid := (i + (i_ahead - 1)) / 2) in *. clearbody mid.
    assert (Hplateau : forall k, i <= k < i_ahead ->
                         (Np.get x k =? Np.get x i)%float = true).
    { intros k Hk. destruct (Nat.eq_dec k i) as [->|Hne].
      - apply eqb_refl_not_nan. apply (ltb_not_nan Hrise).
      - apply Heq. lia. }
    constructor; [|apply Hnext; lia].
    split; [lia|]. split.
    + destruct (Nat.eq_dec mid i) as [->|Hne].
      * rewrite FloatAxioms.leb_spec. apply SFleb_of_ltb.
        rewrite <- FloatAxioms.ltb_spec. exact Hrise.
      * apply leb_of_eqb with (c := Np.get x i); apply Hplateau; lia.
    + destruct (Nat.eq_dec (mid + 1) i_ahead) as [E|Hne].
      * rewrite E. apply leb_of_ltb_eqb with (c := Np.get x i);
          [exact Hfall | apply Hplateau; lia].
      * apply leb_of_eqb with (c := Np.get x i); apply Hplateau; lia.
Qed.

Lemma select_index_in (arr : list peak) :
  arr <> [] -> In (select_index arr) (map fst arr).
Proof.
  intros Hne. unfold select_index.
  destruct (Nat.ltb_spec (length arr) 3) as [Hlt|Hge].
  - destruct arr as [|t rest]; [congruence|].
    destruct (length (t :: rest) =? 1); left; reflexivity.
  - destruct arr as [|t1 [|t2 [|t3 rest]]]; simpl in Hge; try lia.
    cbn [firstn].
    assert (Htrue : Forall (fun _ : peak => True) [t1; t2; t3]) by (repeat constructor).
    pose proof (@sorted_perm _ position_lt (fun _ => True)
                  position_lt_asym position_lt_negtrans _ Htrue) as Hp.
    pose proof (Permutation_length Hp) as Hl.
    destruct (Py.sorted position_lt [t1; t2; t3]) as [|x [|y [|z [|? ?]]]];
      try discriminate.
    unfold index_at. cbn [nth].
    assert (Hin : In y [t1; t2; t3]).
    { eapply Permutation_in; [symmetry; exact Hp|]. right. left. reflexivity. }
    apply in_map. simpl in Hin. simpl. tauto.
Qed.

(** The index selected in a chunk is the position of a detected peak. *)
Lemma selected_index_in_peaks (chunk : list float) (idx : Z) :
  interference_peak_index chunk = Some idx ->
  exists p : nat, idx = Z.of_nat p /\ In p (Np.find_peaks chunk).
Proof.
  intros Hsel.
  assert (Hne : Np.find_peaks chunk <> []).
  { unfold interference_peak_index in Hsel.
    destruct (Np.find_peaks chunk); [discriminate | discriminate]. }
  rewrite (interference_peak_index_some chunk Hne) in Hsel.
  injection Hsel as Hsel.
  destruct (sorted_candidates chunk) as (Hp & _ & _). cbv zeta in Hp.
  assert (Harr : Py.sorted_reverse height_lt (candidates chunk) <> []).
  { intros E. rewrite E in Hp. apply Permutation_length in Hp.
    rewrite candidates_length in Hp. destruct (Np.find_peaks chunk); [congruence|discriminate]. }
  pose proof (select_index_in Harr) as Hin. rewrite Hsel in Hin.
  apply (Permutation_in _ (Permutation_sym (Permutation_map fst Hp))) in Hin.
  unfold candidates in Hin. rewrite map_map in Hin. cbn [fst] in Hin.
  apply in_map_iff in Hin. destruct Hin as (p & Hidx & Hpin).
  exists p. split; [symmetry; exact Hidx | exact Hpin].
Qed.

(** A detected peak is neither the first nor the last sample. *)
Lemma find_peaks_interior (chunk : list float) (p : nat) :
  In p (Np.find_peaks chunk) -> 1 <= p /\ p + 1 < length chunk.
Proof.
  intros Hpin.
  pose proof (@local_maxima_from_sound chunk (length chunk - 1) (length chunk) 1
                ltac:(lia)) as Hsound.
  rewrite Forall_forall in Hsound. destruct (Hsound p Hpin) as (Hb & _). lia.
Qed.

(** X1.  The selected index is always one of the peaks [find_peaks] found:
    it lies strictly inside the chunk, its sample is a number, and neither
    neighbouring sample is higher. *)
Theorem selected_index_is_interior_peak (chunk : list float) (idx : Z) :
  interference_peak_index chunk = Some idx ->
  exists p : nat,
    idx = Z.of_nat p /\
    In p (Np.find_peaks chunk) /\
    1 <= p /\ p + 1 < length chunk /\
    is_nan (Np.get chunk p) = false /\
    (Np.get chunk (p - 1) <=? Np.get chunk p)%float = true /\
    (Np.get chunk (p + 1) <=? Np.get chunk p)%float = true.
Proof.
  intros Hsel. destruct (selected_index_in_peaks chunk Hsel) as (p & Hidx & Hpin).
  exists p. split; [exact Hidx|]. split; [exact Hpin|].
  pose proof (@local_maxima_from_sound chunk (length chunk - 1) (length chunk) 1
                ltac:(lia)) as Hsound.
  pose proof (find_peaks_not_nan chunk) as Hnan.
  rewrite Forall_forall in Hsound, Hnan.
  destruct (Hsound p Hpin) as (Hb & Hl & Hr).
  split; [lia|]. split; [lia|]. split; [apply Hnan; exact Hpin|]. split; assumption.
Qed.

Lemma selected_index_is_interior_peak_witness :
  interference_peak_index synthetic_window = Some 50%Z /\
  exists p : nat,
    50%Z = Z.of_nat p /\
    In p (Np.find_peaks synthetic_window) /\
    1 <= p /\ p + 1 < length synthetic_window /\
    is_nan (Np.get synthetic_window p) = false /\
    (Np.get synthetic_window (p - 1) <=? Np.get synthetic_window p)%float = true /\
    (Np.get synthetic_window (p + 1) <=? Np.get synthetic_window p)%float = true.
Proof.
  assert (H : interference_peak_index synthetic_window = Some 50%Z)
    by (vm_compute; reflexivity).
  split; [exact H|]. exact (selected_index_is_interior_peak synthetic_window H).
Defined.

(** ** The loop over the windows *)

Lemma fit_window_bounds (d : Z) (chunk : list float) (low idx high : Z) :
  fit_window d chunk = Some (low, idx, high) ->
  interference_peak_index chunk = Some idx /\
  low = Z.max 0 (idx - d) /\
  high = Z.min (Z.of_nat (length chunk)) (idx + d) /\
  (3 <= high - low)%Z.
Proof.
  unfold fit_window. destruct (length chunk =? 0); [discriminate|].
  destruct (interference_peak_index chunk) as [i|]; [|discriminate].
  destruct (Z.ltb_spec (Z.min (Z.of_nat (length chunk)) (i + d) - Z.max 0 (i - d)) 3)
    as [Hs|Hs]; [discriminate|].
  intros Hx. inversion Hx; subst. repeat split; try reflexivity. exact Hs.
Qed.

(** The initial guess of the Gaussian fit never raises: the sub-window is
    not empty. *)
Lemma chunk_height_returns (curve_fit : gaussian_fit) (d : Z) (chunk : list float) :
  exists h : option float, chunk_height curve_fit d chunk = Ok h.
Proof.
  unfold chunk_height.
  destruct (fit_window d chunk) as [[[low idx] high]|] eqn:E; [|eexists; reflexivity].
  destruct (fit_window_bounds d chunk E) as (_ & Hlow & Hhigh & Hlen).
  assert (Hl : Z.of_nat (length (Py.slice chunk (Z.to_nat low) (Z.to_nat high)))
               = (high - low)%Z) by (apply slice_length; lia).
  unfold fit_call.
  destruct (Py.slice chunk (Z.to_nat low) (Z.to_nat high)) as [|y ys'].
  { simpl in Hl. lia. }
  cbn [Np.max bind].
  destruct (curve_fit _) as [[[A mu] sigma]|e]; eexists; reflexivity.
Qed.

Lemma chunk_heights_returns (curve_fit : gaussian_fit) (d : Z) (chunks : list (list float)) :
  forall acc, exists heights : list float,
    chunk_heights curve_fit d chunks acc = Ok heights /\
    length acc <= length heights <= length acc + length chunks.
Proof.
  induction chunks as [|chunk rest IH]; intros acc; cbn [chunk_heights].
  - exists acc. split; [reflexivity | simpl; lia].
  - destruct (chunk_height_returns curve_fit d chunk) as [h Hh]. rewrite Hh. cbn [bind].
    destruct (IH match h with Some A => acc ++ [A] | None => acc end)
      as (heights & Hr & Hlen).
    exists heights. split; [exact Hr|].
    destruct h; [rewrite length_app in Hlen|]; simpl in *; lia.
Qed.

Lemma sampling_period_positive (st : Settings) (n : Z) :
  sampling_period st = Ok n -> (1 <= n)%Z.
Proof.
  unfold sampling_period.
  destruct (Py.mul (period st) (sampling_rate st)) as [p|e]; [|discriminate].
  cbn [bind]. destruct (Py.int p) as [k|e]; [|discriminate]. cbn [bind].
  destruct (Z.leb_spec k 0) as [Hk|Hk]; [discriminate|].
  intros Hx. inversion Hx; subst. lia.
Qed.

(** With usable settings the call returns the aggregate of the amplitudes
    collected over the windows. *)
Lemma estimation_returns (curve_fit : gaussian_fit) (st : Settings)
      (voltages : list float) (n d : Z) :
  sampling_period st = Ok n -> delay_samples st = Ok d ->
  exists (ws : list (list float)) (heights : list float),
    windows voltages n = Ok ws /\
    chunk_heights curve_fit d ws [] = Ok heights /\
    length heights <= length ws /\
    interference_voltage_estimation curve_fit st voltages = Ok (aggregate heights).
Proof.
  intros Hn Hd. unfold interference_voltage_estimation. rewrite Hn. cbn [bind].
  pose proof (sampling_period_positive st Hn) as Hpos.
  unfold windows. rewrite (chunk_array_positive voltages Hpos). cbn [bind].
  rewrite Hd. cbn [bind].
  destruct (chunk_heights_returns curve_fit d
              (tl (map (fun j => Py.slice voltages j (j + Z.to_nat n))
                       (Py.range_from (length voltages) 0 (length voltages)
                                      (Z.to_nat n)))) [])
    as (heights & Hh & Hlen).
  do 2 eexists. split; [reflexivity|]. split; [exact Hh|].
  split; [simpl in Hlen; lia|]. rewrite Hh. reflexivity.
Qed.


(** A sub-window that reaches the fit has at most [2 * d] samples. *)
Lemma fit_window_size (d : Z) (chunk : list float) (low idx high : Z) :
  fit_window d chunk = Some (low, idx, high) -> (3 <= high - low <= 2 * d)%Z.
Proof.
  intros Hw. destruct (fit_window_bounds d chunk Hw) as (_ & Hlow & Hhigh & Hlen). lia.
Qed.

(** X3.  A sub-window handed to the fit stays inside the chunk, holds the
    selected index, and has between three and [2 * delay_samples]
    samples. *)
Theorem fit_window_brackets_index (d : Z) (chunk : list float) (low idx high : Z) :
  (1 <= d)%Z ->
  fit_window d chunk = Some (low, idx, high) ->
  (0 <= low <= idx)%Z /\ (idx < high <= Z.of_nat (length chunk))%Z /\
  (3 <= high - low <= 2 * d)%Z.
Proof.
  intros Hd Hw. destruct (fit_window_bounds d chunk Hw) as (Hsel & Hlow & Hhigh & Hlen).
  destruct (selected_index_in_peaks chunk Hsel) as (p & Hidx & Hpin).
  destruct (find_peaks_interior chunk p Hpin) as [Hp1 Hp2].
  lia.
Qed.

Lemma fit_window_brackets_index_witness :
  (1 <= 2)%Z /\ fit_window 2 sample_window = Some (0, 2, 4)%Z /\
  (0 <= 0 <= 2)%Z /\ (2 < 4 <= Z.of_nat (length sample_window))%Z /\
  (3 <= 4 - 0 <= 2 * 2)%Z.
Proof.
  assert (Hd : (1 <= 2)%Z) by lia.
  assert (Hw : fit_window 2 sample_window = Some (0, 2, 4)%Z) by (vm_compute; reflexivity).
  split; [exact Hd|]. split; [exact Hw|].
  exact (fit_window_brackets_index sample_window Hd Hw).
Defined.

Lemma chunk_heights_half_width_one (curve_fit : gaussian_fit) (chunks : list (list float)) :
  forall acc, chunk_heights curve_fit 1 chunks acc = Ok acc.
Proof.
  induction chunks as [|chunk rest IH]; intros acc; cbn [chunk_heights]; [reflexivity|].
  unfold chunk_height.
  destruct (fit_window 1 chunk) as [[[low idx] high]|] eqn:E.
  - pose proof (fit_window_size 1 chunk E). lia.
  - cbn [bind]. apply IH.
Qed.

(** X4.  When the product [delay * sampling_rate] is below 4, the half
    width is 1, no sub-window can reach three samples, and
    [interference_voltage_estimation] returns [(NaN, NaN)] for every trace
    and every fit. *)
Theorem short_delay_gives_nan (curve_fit : gaussian_fit) (st : Settings)
        (voltages : list float) (n : Z) (p : Py.num) (v : Q) :
  sampling_period st = Ok n ->
  Py.mul (delay st) (sampling_rate st) = Ok p ->
  num_value p = Some v ->
  (v < 4)%Q ->
  delay_samples st = Ok 1%Z /\
  interference_voltage_estimation curve_fit st voltages = Ok (nan, nan).
Proof.
  intros Hn Hp Hv Hlt.
  assert (Hd : delay_samples st = Ok 1%Z).
  { unfold delay_samples, half_delay. rewrite Hp. cbn [bind].
    rewrite int_floordiv2_value, Hv. cbn [bind].
    assert (Hfl : (Qfloor (v / 2) < 2)%Z).
    { rewrite Zlt_Qlt. eapply Qle_lt_trans; [apply Qfloor_le|].
      apply Qlt_shift_div_r; [reflexivity|]. exact Hlt. }
    generalize dependent (Qfloor (v / 2)). intros q Hq.
    destruct (Z.ltb_spec q 1); f_equal; lia. }
  split; [exact Hd|].
  destruct (@estimation_returns curve_fit st voltages n 1%Z Hn Hd)
    as (ws & heights & _ & Hh & _ & Hres).
  rewrite chunk_heights_half_width_one in Hh. inversion Hh; subst. exact Hres.
Qed.

Lemma short_delay_gives_nan_witness :
  sampling_period short_delay_settings = Ok 4%Z /\
  Py.mul (delay short_delay_settings) (sampling_rate short_delay_settings)
    = Ok (Py.PFloat 2) /\
  (inject_Z (2 ^ 52) * Qpower 2 (-51) < 4)%Q /\
  delay_samples short_delay_settings = Ok 1%Z /\
  interference_voltage_estimation constant_fit short_delay_settings synthetic_window
    = Ok (nan, nan).
Proof.
  assert (Hn : sampling_period short_delay_settings = Ok 4%Z) by (vm_compute; reflexivity).
  assert (Hp : Py.mul (delay short_delay_settings) (sampling_rate short_delay_settings)
               = Ok (Py.PFloat 2)) by (vm_compute; reflexivity).
  assert (Hv : num_value (Py.PFloat 2) = Some (inject_Z (2 ^ 52) * Qpower 2 (-51))%Q)
    by (vm_compute; reflexivity).
  assert (Hlt : (inject_Z (2 ^ 52) * Qpower 2 (-51) < 4)%Q) by (vm_compute; reflexivity).
  split; [exact Hn|]. split; [exact Hp|]. split; [exact Hlt|].
  exact (short_delay_gives_nan constant_fit short_delay_settings synthetic_window
           Hn Hp Hv Hlt).
Defined.

Lemma windows_short_trace (voltages : list float) (n : Z) :
  (1 <= n)%Z -> (Z.of_nat (length voltages) <= n)%Z -> windows voltages n = Ok [].
Proof.
  intros Hn Hlen. unfold windows. rewrite (chunk_array_positive voltages Hn). cbn [bind].
  f_equal. destruct voltages as [|v vs]; [reflexivity|].
  cbn [length Py.range_from]. change (0 <? S (length vs)) with true. cbn iota.
  cbn [map tl]. destruct (length vs) as [|k] eqn:E; [reflexivity|].
  cbn [Py.range_from].
  destruct (Nat.ltb_spec (0 + Z.to_nat n) (S (S k))) as [H|H]; [|reflexivity].
  simpl length in Hlen. lia.
Qed.

(** X5.  A trace no longer than one sampling period has no window left
    once the first chunk is dropped: [interference_voltage_estimation]
    returns [(NaN, NaN)] without calling the fit. *)
Theorem short_trace_gives_nan (curve_fit : gaussian_fit) (st : Settings)
        (voltages : list float) (n d : Z) :
  sampling_period st = Ok n ->
  delay_samples st = Ok d ->
  (Z.of_nat (length voltages) <= n)%Z ->
  windows voltages n = Ok [] /\
  interference_voltage_estimation curve_fit st voltages = Ok (nan, nan).
Proof.
  intros Hn Hd Hlen.
  pose proof (windows_short_trace voltages (sampling_period_positive st Hn) Hlen) as Hw.
  split; [exact Hw|].
  unfold interference_voltage_estimation. rewrite Hn. cbn [bind]. rewrite Hw. cbn [bind].
  rewrite Hd. reflexivity.
Qed.

Lemma short_trace_gives_nan_witness :
  sampling_period sample_settings = Ok 4%Z /\
  delay_samples sample_settings = Ok 2%Z /\
  (Z.of_nat (length [0; 1; 3; 1]%float) <= 4)%Z /\
  windows [0; 1; 3; 1]%float 4 = Ok [] /\
  interference_voltage_estimation constant_fit sample_settings [0; 1; 3; 1]%float
    = Ok (nan, nan).
Proof.
  assert (Hn : sampling_period sample_settings = Ok 4%Z) by (vm_compute; reflexivity).
  assert (Hd : delay_samples sample_settings = Ok 2%Z) by (vm_compute; reflexivity).
  assert (Hl : (Z.of_nat (length [0; 1; 3; 1]%float) <= 4)%Z) by (vm_compute; discriminate).
  split; [exact Hn|]. split; [exact Hd|]. split; [exact Hl|].
  exact (short_trace_gives_nan constant_fit sample_settings [0; 1; 3; 1]%float Hn Hd Hl).
Defined.

(** ** Edge cases of [main] and [initial_guess] *)

(** X6.  On a non-empty stored sweep whose temperatures and means are as
    many and on which the plotting calls before the [try] return: when
    the greatest and the least stored mean add up to zero, the division
    of the raw visibility raises inside the [try]; [main] prints the
    fitted visibility and then reports the zero division as a failed fit,
    although the fit returned. *)
Theorem raw_zero_division_reported_as_fit_failure
        (errorbar : pyplot) (curve_fit : cos2_fit) (bha : Sweep)
        (popt : cos2_params) (M m : float) :
  temperature bha <> [] ->
  length (temperature bha) = length (mean bha) ->
  errorbar bha = Ok tt ->
  fit_attempt curve_fit bha = Ok popt ->
  Py.max (mean bha) = Ok M ->
  Py.min (mean bha) = Ok m ->
  (M + m =? 0)%float = true ->
  main errorbar curve_fit bha =
    Ok [FittedVisibility (visibility popt); FitFailed ZeroDivisionError].
Proof.
  intros Hne Hlen Hbar Hfit HM Hm Hz.
  rewrite (@main_nonempty errorbar curve_fit bha Hne Hlen Hbar), Hfit.
  unfold raw_visibility. rewrite HM, Hm. cbn [bind]. unfold Py.truediv. rewrite Hz.
  reflexivity.
Qed.

Lemma raw_zero_division_reported_as_fit_failure_witness :
  temperature symmetric_sweep <> [] /\
  length (temperature symmetric_sweep) = length (mean symmetric_sweep) /\
  Py.max (mean symmetric_sweep) = Ok 1%float /\
  Py.min (mean symmetric_sweep) = Ok (-1)%float /\
  main drawing returning_fit symmetric_sweep =
    Ok [FittedVisibility (visibility (-1, 2, Np.pi * 2, 0)%float);
        FitFailed ZeroDivisionError].
Proof.
  assert (Hne : temperature symmetric_sweep <> []) by (vm_compute; discriminate).
  assert (Hlen : length (temperature symmetric_sweep) = length (mean symmetric_sweep))
    by reflexivity.
  assert (Hfit : fit_attempt returning_fit symmetric_sweep
                 = Ok (-1, 2, Np.pi * 2, 0)%float) by (vm_compute; reflexivity).
  assert (HM : Py.max (mean symmetric_sweep) = Ok 1%float) by (vm_compute; reflexivity).
  assert (Hm : Py.min (mean symmetric_sweep) = Ok (-1)%float) by (vm_compute; reflexivity).
  split; [exact Hne|]. split; [exact Hlen|]. split; [exact HM|]. split; [exact Hm|].
  apply (@raw_zero_division_reported_as_fit_failure drawing returning_fit symmetric_sweep
           _ _ _ Hne Hlen eq_refl Hfit HM Hm).
  vm_compute. reflexivity.
Defined.

Lemma maximum_same (t : float) : Np.maximum t t = t.
Proof. unfold Np.maximum. destruct (is_nan t), (t <? t)%float; reflexivity. Qed.

Lemma minimum_same (t : float) : Np.minimum t t = t.
Proof. unfold Np.minimum. destruct (is_nan t), (t <? t)%float; reflexivity. Qed.

Lemma max_repeat (t : float) (n : nat) : Np.max (repeat t (S n)) = Ok t.
Proof.
  cbn [repeat Np.max]. f_equal.
  induction n as [|n IH]; [reflexivity|]. cbn [repeat fold_left].
  rewrite maximum_same. exact IH.
Qed.

Lemma min_repeat (t : float) (n : nat) : Np.min (repeat t (S n)) = Ok t.
Proof.
  cbn [repeat Np.min]. f_equal.
  induction n as [|n IH]; [reflexivity|]. cbn [repeat fold_left].
  rewrite minimum_same. exact IH.
Qed.

(** A float that is a number minus itself compares equal to zero. *)
Lemma sub_self_is_zero (t : float) :
  float_value t <> None -> (t - t =? 0)%float = true.
Proof.
  intros Hfin. rewrite FloatAxioms.eqb_spec, sub_spec.
  unfold float_value in Hfin.
  destruct (Prim2SF t) as [s|s| |s m e]; try congruence.
  - destruct s; reflexivity.
  - unfold SF64sub, SFsub. rewrite Z.sub_diag. reflexivity.
Qed.



(** ** The quotient of two ints

    Rounding the quotient of a multiple of [B] by [B] keeps it exact. *)

Section ExactQuotient.
Local Open Scope Z_scope.

Lemma shl_value h k : 0 <= k -> Zpos (shl h k) = Zpos h * 2 ^ k.
Proof.
  intros Hk. destruct k as [|p|p]; simpl shl; [simpl; lia | apply iter_xO_value | lia].
Qed.

Lemma shl_digits h k :
  0 <= k -> Zpos (digits2_pos (shl h k)) = Zpos (digits2_pos h) + k.
Proof.
  intros Hk. destruct k as [|p|p]; simpl shl; [lia | apply digits2_iter_xO | lia].
Qed.

Lemma shl_succ h k : 0 <= k -> shl h (k + 1) = xO (shl h k).
Proof.
  intros Hk. apply Pos2Z.inj. rewrite Pos2Z.inj_xO, !shl_value by lia.
  rewrite Z.pow_add_r by lia. lia.
Qed.

Lemma fexp_normal x : -1021 <= x -> fexp prec emax x = x - 53.
Proof. intros H. unfold fexp, SpecFloat.emin, prec, emax. lia. Qed.

(** Rounding [h * 2^s] at exponent [-s] when it has 53 or 54 bits: the
    value [h] is kept. *)
Lemma binary_round_aux_exact sgn h s :
  let dh := Zpos (digits2_pos h) in
  dh <= 53 -> 0 <= s -> (dh + s = 53 \/ dh + s = 54) ->
  binary_round_aux prec emax sgn (Zpos (shl h s)) (- s) loc_Exact
  = S754_finite sgn (shl h (53 - dh)) (dh - 53).
Proof.
  intros dh Hle Hs Hd. subst dh.
  remember (Zpos (digits2_pos h)) as dh eqn:Hdh.
  assert (Hpos : 0 < dh) by (subst dh; lia).
  unfold binary_round_aux, shr_fexp. simpl Zdigits2.
  rewrite (@shl_digits h s Hs), <- Hdh.
  rewrite (@fexp_normal (dh + s + - s)) by lia.
  destruct Hd as [Hd|Hd].
  - replace (dh + s + - s - 53 - - s) with 0 by lia.
    cbn [shr shr_record_of_loc shr_m loc_of_shr_record round_nearest_even].
    simpl Zdigits2. rewrite (@shl_digits h s Hs), <- Hdh.
    rewrite (@fexp_normal (dh + s + - s)) by lia.
    replace (dh + s + - s - 53 - - s) with 0 by lia.
    cbn [shr shr_record_of_loc shr_m].
    replace (53 - dh) with s by lia. replace (dh - 53) with (- s) by lia.
    destruct (Z.leb_spec (- s) (emax - prec)); [reflexivity|].
    unfold emax, prec in *. lia.
  - replace (dh + s + - s - 53 - - s) with 1 by lia.
    assert (Hs1 : shl h s = xO (shl h (s - 1))).
    { rewrite <- shl_succ by lia. f_equal. lia. }
    cbn [shr shr_record_of_loc]. cbn [SpecFloat.iter_pos].
    rewrite Hs1. cbn [shr_1 orb].
    cbn [shr_m loc_of_shr_record round_nearest_even].
    simpl Zdigits2. rewrite (@shl_digits h (s - 1)), <- Hdh by lia.
    rewrite (@fexp_normal (dh + (s - 1) + (- s + 1))) by lia.
    replace (dh + (s - 1) + (- s + 1) - 53 - (- s + 1)) with 0 by lia.
    cbn [shr shr_record_of_loc shr_m].
    replace (53 - dh) with (s - 1) by lia. replace (dh - 53) with (- s + 1) by lia.
    destruct (Z.leb_spec (- s + 1) (emax - prec)); [reflexivity|].
    unfold emax, prec in *. lia.
Qed.

Lemma pow2_lt_inv a b : 0 <= b -> 2 ^ a < 2 ^ b -> a < b.
Proof. intros Hb H. apply (Z.pow_lt_mono_r_iff 2); [lia | exact Hb | exact H]. Qed.

Lemma digits2_mul h B :
  Zpos (digits2_pos h) + Zpos (digits2_pos B) - 1 <= Zpos (digits2_pos (h * B))
  /\ Zpos (digits2_pos (h * B)) <= Zpos (digits2_pos h) + Zpos (digits2_pos B).
Proof.
  pose proof (digits2_lower h) as Hl1. pose proof (digits2_upper h) as Hu1.
  pose proof (digits2_lower B) as Hl2. pose proof (digits2_upper B) as Hu2.
  pose proof (digits2_lower (h * B)) as Hl. pose proof (digits2_upper (h * B)) as Hu.
  rewrite Pos2Z.inj_mul in Hl, Hu.
  set (dh := Zpos (digits2_pos h)) in *. set (d2 := Zpos (digits2_pos B)) in *.
  set (d1 := Zpos (digits2_pos (h * B))) in *.
  assert (0 < dh) by (unfold dh; lia). assert (0 < d2) by (unfold d2; lia).
  assert (0 < d1) by (unfold d1; lia).
  clearbody dh d2 d1.
  split.
  - assert (Hlow : 2 ^ (dh - 1 + (d2 - 1)) < 2 ^ d1).
    { rewrite Z.pow_add_r by lia. nia. }
    apply pow2_lt_inv in Hlow; lia.
  - assert (Hup : 2 ^ (d1 - 1) < 2 ^ (dh + d2)).
    { rewrite (Z.pow_add_r 2 dh d2) by lia. nia. }
    apply pow2_lt_inv in Hup; lia.
Qed.

Lemma div_eucl_pair a b : Z.div_eucl a b = (a / b, a mod b).
Proof. unfold Z.div, Z.modulo. destruct (Z.div_eucl a b). reflexivity. Qed.

(** The quotient of [h * B] by [B] is the float that holds [h]. *)
Lemma SFdiv_exact sa sb h B :
  let dh := Zpos (digits2_pos h) in
  dh <= 53 ->
  SFdiv prec emax (S754_finite sa (h * B) 0) (S754_finite sb B 0)
  = S754_finite (xorb sa sb) (shl h (53 - dh)) (dh - 53).
Proof.
  intros dh Hle. subst dh.
  destruct (digits2_mul h B) as [Hd1 Hd2].
  unfold SFdiv, SFdiv_core_binary. simpl Zdigits2.
  remember (Zpos (digits2_pos h)) as dh eqn:Hdh.
  remember (Zpos (digits2_pos B)) as d2 eqn:Hd2e.
  remember (Zpos (digits2_pos (h * B))) as d1 eqn:Hd1e.
  assert (Hpos : 0 < dh) by (subst dh; lia).
  rewrite (@fexp_normal (d1 + 0 - (d2 + 0))) by lia.
  replace (Z.min (d1 + 0 - (d2 + 0) - 53) (0 - 0)) with (- (53 - (d1 - d2))) by lia.
  replace (0 - 0 - - (53 - (d1 - d2))) with (53 - (d1 - d2)) by lia.
  set (s := 53 - (d1 - d2)) in *.
  assert (Hs : 0 <= s) by (unfold s; lia).
  assert (Hm : match s with
               | 0 => Zpos (h * B)
               | Zpos _ => Z.shiftl (Zpos (h * B)) s
               | Zneg _ => 0
               end = Zpos (shl h s) * Zpos B).
  { rewrite shl_value by exact Hs. destruct s as [|p|p] eqn:Es.
    - rewrite Pos2Z.inj_mul. simpl. lia.
    - rewrite Z.shiftl_mul_pow2 by lia. rewrite Pos2Z.inj_mul. lia.
    - lia. }
  rewrite Hm, div_eucl_pair, Z.div_mul, Z.mod_mul by lia.
  assert (Hloc : new_location (Zpos B) 0 = loc_Exact).
  { unfold new_location, new_location_even, new_location_odd.
    destruct (Z.even (Zpos B)); reflexivity. }
  rewrite Hloc.
  rewrite (@binary_round_aux_exact (xorb sa sb) h s); rewrite <- ?Hdh; try lia.
  reflexivity.
Qed.

End ExactQuotient.

(** ** The readers of the oscilloscope *)

Lemma is_infinity_finite s m e :
  valid_binary (S754_finite s m e) = true ->
  is_infinity (SF2Prim (S754_finite s m e)) = false.
Proof.
  intros Hv. unfold is_infinity.
  rewrite FloatAxioms.eqb_spec, abs_spec, (@Prim2SF_SF2Prim _ Hv).
  reflexivity.
Qed.

Lemma valid_shl s h :
  (Zpos (digits2_pos h) <= 53)%Z ->
  valid_binary (S754_finite s (shl h (53 - Zpos (digits2_pos h)))
                              (Zpos (digits2_pos h) - 53)) = true.
Proof.
  intros Hle. unfold valid_binary, bounded, canonical_mantissa.
  rewrite shl_digits by lia.
  remember (Zpos (digits2_pos h)) as d eqn:Ed.
  assert (Hd : (1 <= d)%Z) by (subst d; lia).
  replace (d + (53 - d) + (d - 53))%Z with d by lia.
  rewrite fexp_normal by lia.
  rewrite Z.eqb_refl. simpl. apply Z.leb_le. unfold emax, prec. lia.
Qed.

Lemma truediv_int_multiple h B :
  (Zpos h < 2 ^ 53)%Z ->
  exists q, Osc.truediv_int (Zpos (h * B)) (Zpos B) = Ok q
            /\ Py.int_of_float q = Ok (Zpos h).
Proof.
  intros Hh. pose proof (@digits2_bound h Hh) as Hd.
  unfold Osc.truediv_int. simpl Z.eqb. cbv iota.
  unfold Osc.int_to_SF. rewrite (@SFdiv_exact false false h B Hd).
  simpl xorb. pose proof (@valid_shl false h Hd) as Hv.
  rewrite (@is_infinity_finite _ _ _ Hv).
  eexists. split; [reflexivity|].
  unfold Py.int_of_float. rewrite (@Prim2SF_SF2Prim _ Hv).
  f_equal. rewrite shl_value by lia.
  remember (Zpos (digits2_pos h)) as d.
  destruct (Z.eq_dec d 53) as [E|E].
  - rewrite E. simpl. lia.
  - replace (d - 53)%Z with (- (53 - d))%Z by lia.
    rewrite Z.shiftl_opp_r, Z.shiftr_div_pow2 by lia.
    apply Z.div_mul. apply Z.pow_nonzero; lia.
Qed.

Lemma source_header_len_exact n (M : Z) (data : list Byte.byte) (h : Z) :
  0 < n -> (0 <= h < 2 ^ 53)%Z ->
  Z.of_nat (length data) = (Z.of_nat n * (h + M) + 1)%Z ->
  Osc.source_header_len n M data = Ok h.
Proof.
  intros Hn Hh Hlen. unfold Osc.source_header_len.
  replace (Z.of_nat (length data) - Z.of_nat n * M - 1)%Z
    with (h * Z.of_nat n)%Z by lia.
  destruct n as [|n']; [lia|].
  replace (Z.of_nat (S n')) with (Zpos (Pos.of_succ_nat n')) by lia.
  destruct h as [|hp|hp]; [| |lia].
  - reflexivity.
  - change (Zpos hp * Zpos (Pos.of_succ_nat n'))%Z
      with (Zpos (hp * Pos.of_succ_nat n')).
    destruct (@truediv_int_multiple hp (Pos.of_succ_nat n')) as (q & Hq & Hi); [lia|].
    rewrite Hq. exact Hi.
Qed.

Lemma slice_middle (A : Type) (a b c : list A) :
  Py.slice (a ++ b ++ c) (length a) (length a + length b) = b.
Proof.
  unfold Py.slice. rewrite skipn_app, skipn_all, Nat.sub_diag. simpl.
  replace (length a + length b - length a) with (length b) by lia.
  rewrite firstn_app, firstn_all, Nat.sub_diag. simpl. apply app_nil_r.
Qed.

Lemma framed_cons f frames t : framed (f :: frames) t = fst f ++ snd f ++ framed frames t.
Proof. unfold framed. simpl. rewrite <- !app_assoc. reflexivity. Qed.

Lemma framed_length h m frames t :
  uniform h m frames ->
  length (framed frames t) = length frames * (h + m) + 1.
Proof.
  intros Hu. induction Hu as [|f fs [Hf Hs] _ IH].
  - reflexivity.
  - rewrite framed_cons, !length_app, IH, Hf, Hs. simpl. lia.
Qed.

Lemma frames_slices h m frames t :
  uniform h m frames ->
  forall pre : list Byte.byte,
  map (fun k => Py.slice (pre ++ framed frames t)
                  (length pre + (k + 1) * h + k * m)
                  (length pre + (k + 1) * h + (k + 1) * m))
      (seq 0 (length frames))
  = map snd frames.
Proof.
  intros Hu. induction Hu as [|f fs [Hf Hs] _ IH]; intros pre.
  - reflexivity.
  - cbn [length seq map]. f_equal.
    + rewrite framed_cons.
      replace (pre ++ fst f ++ snd f ++ framed fs t)
        with ((pre ++ fst f) ++ snd f ++ framed fs t) by (rewrite <- app_assoc; reflexivity).
      replace (length pre + (0 + 1) * h + 0 * m) with (length (pre ++ fst f))
        by (rewrite length_app; lia).
      replace (length pre + (0 + 1) * h + (0 + 1) * m)
        with (length (pre ++ fst f) + length (snd f))
        by (rewrite length_app; lia).
      apply slice_middle.
    + rewrite <- seq_shift, map_map.
      rewrite <- (IH (pre ++ fst f ++ snd f)).
      apply map_ext. intros k.
      rewrite framed_cons, !length_app, Hf, Hs.
      rewrite <- !app_assoc. f_equal; lia.
Qed.

Lemma clip_inside len i : (0 <= i <= len)%Z -> Osc.clip len i = i.
Proof.
  intros H. unfold Osc.clip. destruct (Z.ltb_spec i 0) as [Hi|Hi]; lia.
Qed.

(** With the right header length the slices of [readVolt_bin] are the
    samples of the frames. *)
Lemma channel_slices_framed h m frames t :
  uniform h m frames ->
  map (fun k =>
         Osc.slice_int (framed frames t)
           ((Z.of_nat k + 1) * Z.of_nat h + Z.of_nat k * Z.of_nat m)
           ((Z.of_nat k + 1) * Z.of_nat h + (Z.of_nat k + 1) * Z.of_nat m))
      (seq 0 (length frames))
  = map snd frames.
Proof.
  intros Hu. pose proof (framed_length t Hu) as Hlen.
  rewrite <- (@frames_slices h m frames t Hu []).
  apply map_ext_in. intros k Hk. apply in_seq in Hk.
  assert (Hb : (k + 1) * (h + m) <= length frames * (h + m))
    by (apply Nat.mul_le_mono_r; lia).
  unfold Osc.slice_int. rewrite !clip_inside by (rewrite Hlen; nia).
  cbn [app length]. f_equal; nia.
Qed.

Lemma source_header_len_framed h m frames t :
  frames <> [] -> uniform h m frames -> (Z.of_nat h < 2 ^ 53)%Z ->
  Osc.source_header_len (length frames) (Z.of_nat m) (framed frames t)
  = Ok (Z.of_nat h).
Proof.
  intros Hne Hu Hh. apply source_header_len_exact.
  - destruct frames; [congruence | simpl; lia].
  - lia.
  - rewrite (framed_length t Hu). lia.
Qed.

Lemma int8_range b : (-128 <= Osc.int8 b <= 127)%Z.
Proof.
  unfold Osc.int8. pose proof (Byte.to_N_bounded b) as Hb.
  destruct (Z.ltb_spec (Z.of_N (Byte.to_N b)) 128); lia.
Qed.

Lemma int8_mod b : (Osc.int8 b mod 256 = Z.of_N (Byte.to_N b))%Z.
Proof.
  unfold Osc.int8. pose proof (Byte.to_N_bounded b) as Hb.
  destruct (Z.ltb_spec (Z.of_N (Byte.to_N b)) 128) as [Hs|Hs].
  - apply Z.mod_small. lia.
  - symmetry. apply (Zmod_unique _ _ (-1)); lia.
Qed.

(** X8.  [readVolt_bin] gives back the samples of every channel when the
    response is one frame per channel, all with a header of the same
    length and [memory] samples, followed by one closing byte: the header
    length it computes is the real one, and no header or closing byte gets
    into a channel. *)
Theorem readVolt_bin_recovers_frames (h m : nat) frames t :
  frames <> [] -> uniform h m frames -> (Z.of_nat h < 2 ^ 53)%Z ->
  Osc.readVolt_bin (length frames) (Z.of_nat m) (framed frames t)
  = Ok (map snd frames).
Proof.
  intros Hne Hu Hh. unfold Osc.readVolt_bin.
  rewrite (source_header_len_framed t Hne Hu Hh). cbn [bind]. cbv zeta. f_equal.
  apply channel_slices_framed. exact Hu.
Qed.

Lemma readVolt_bin_recovers_frames_witness :
  Osc.readVolt_bin 2 3 (framed sample_frames Byte.x0a)
  = Ok [[Byte.x01; Byte.xff; Byte.x80]; [Byte.x7f; Byte.x00; Byte.xfe]].
Proof.
  apply (@readVolt_bin_recovers_frames 3 3 sample_frames Byte.x0a).
  - discriminate.
  - repeat constructor.
  - reflexivity.
Defined.

(** X9.  When the response is one frame per channel, all with a header
    of the same length and [memory] samples, followed by one closing byte,
    [readVolt_int] returns one array per channel, each of [memory]
    integers between -128 and 127, every one the two's-complement reading
    of its sample byte. *)
Theorem readVolt_int_decodes_frames (h m : nat) frames t :
  frames <> [] -> uniform h m frames -> (Z.of_nat h < 2 ^ 53)%Z ->
  exists datas,
    Osc.readVolt_int (length frames) (Z.of_nat m) (framed frames t) = Ok datas
    /\ length datas = length frames
    /\ Forall (fun ch => length ch = m
                         /\ Forall (fun v => (-128 <= v <= 127)%Z) ch) datas
    /\ map (map (fun v => (v mod 256)%Z)) datas
       = map (fun f => map (fun b => Z.of_N (Byte.to_N b)) (snd f)) frames.
Proof.
  intros Hne Hu Hh. unfold Osc.readVolt_int, Osc.readVolt_bin.
  rewrite (source_header_len_framed t Hne Hu Hh). cbn [bind]. cbv zeta.
  rewrite (channel_slices_framed t Hu).
  eexists. split; [reflexivity|]. split; [|split].
  - rewrite !length_map. reflexivity.
  - rewrite map_map. apply Forall_map.
    apply (Forall_impl _ (P := fun f => length (fst f) = h /\ length (snd f) = m)); [|exact Hu].
    intros f [_ Hs]. split.
    + rewrite length_map. exact Hs.
    + apply Forall_map. apply Forall_forall. intros b _. apply int8_range.
  - rewrite !map_map. apply map_ext. intros f. rewrite map_map.
    apply map_ext. intros b. apply int8_mod.
Qed.

Lemma readVolt_int_decodes_frames_witness :
  exists datas,
    Osc.readVolt_int 2 3 (framed sample_frames Byte.x0a) = Ok datas
    /\ length datas = 2
    /\ Forall (fun ch => length ch = 3
                         /\ Forall (fun v => (-128 <= v <= 127)%Z) ch) datas
    /\ map (map (fun v => (v mod 256)%Z)) datas
       = [[1; 255; 128]; [127; 0; 254]]%Z.
Proof.
  apply (@readVolt_int_decodes_frames 3 3 sample_frames Byte.x0a).
  - discriminate.
  - repeat constructor.
  - reflexivity.
Defined.



(** X11.  With no active channel the three readers raise
    [ZeroDivisionError], whatever the response and the record length. *)
Theorem readVolt_no_channel sc memory data :
  Osc.readVolt_bin 0 memory data = Raise ZeroDivisionError
  /\ Osc.readVolt_int 0 memory data = Raise ZeroDivisionError
  /\ Osc.readVolt sc 0 memory data = Raise ZeroDivisionError.
Proof. repeat split. Qed.

(** ** Properties of the controller wrapper *)

Lemma close_disconnects dev st : Tec.session (fst (Tec.close dev st)) = None.
Proof. unfold Tec.close. destruct (Tec.session st) eqn:E; simpl; [reflexivity | exact E]. Qed.

Lemma ensure_needs_session st : Tec.session st = None -> Tec._ensure st = Raise RuntimeError.
Proof. intros H. unfold Tec._ensure. rewrite H. reflexivity. Qed.

(** X12.  [close] always leaves the wrapper disconnected, also when [stop]
    raises: every later access raises [RuntimeError], and a second
    [close] returns normally without calling [stop] again.  On a wrapper
    that holds a session, [close] clears the session and the address and
    passes on what [stop] gave. *)
Theorem close_always_disconnects dev dev' st :
  Tec._ensure (fst (Tec.close dev st)) = Raise RuntimeError
  /\ Tec.close dev' (fst (Tec.close dev st)) = (fst (Tec.close dev st), Ok tt)
  /\ (Tec.session st <> None ->
      Tec.close dev st = (Tec.disconnected, Tec.stop dev)).
Proof.
  pose proof (close_disconnects dev st) as Hs. repeat split.
  - apply ensure_needs_session, Hs.
  - unfold Tec.close at 1. rewrite Hs. reflexivity.
  - intros Hn. unfold Tec.close. destruct (Tec.session st); [reflexivity | congruence].
Qed.

(** X13.  When the serial port opens but [identify] raises, [connect]
    raises with the session already stored: from then on [connect] returns
    no address without asking the controller again, and every reading
    raises [RuntimeError]. *)
Theorem failed_identify_leaves_wrapper_stuck dev s e :
  Tec.open_port dev = Ok s -> Tec.identify dev = Raise e ->
  let st1 := fst (Tec.connect dev Tec.disconnected) in
  snd (Tec.connect dev Tec.disconnected) = Raise e
  /\ (forall dev', Tec.connect dev' st1 = (st1, Ok None))
  /\ (forall reply, Tec.read_temperature st1 reply = Raise RuntimeError)
  /\ (forall dev', Tec.connect dev (fst (Tec.close dev' st1))
                   = (fst (Tec.connect dev Tec.disconnected), Raise e)).
Proof.
  intros Ho Hi st1.
  assert (Hc : Tec.connect dev Tec.disconnected
               = ({| Tec.session := Some s; Tec.address := None |}, Raise e)).
  { unfold Tec.connect. simpl. rewrite Ho, Hi. reflexivity. }
  subst st1. rewrite Hc. cbn [fst snd]. repeat split.
  intros dev'. unfold Tec.close. simpl. exact Hc.
Qed.

Lemma failed_identify_leaves_wrapper_stuck_witness :
  let dev := {| Tec.open_port := Ok Tec.serial_session;
                Tec.identify := Raise RuntimeError;
                Tec.stop := Ok tt |} in
  Tec.connect dev Tec.disconnected
  = ({| Tec.session := Some Tec.serial_session; Tec.address := None |}, Raise RuntimeError)
  /\ forall reply,
       Tec.read_temperature (fst (Tec.connect dev Tec.disconnected)) reply
       = Raise RuntimeError.
Proof.
  intros dev. split; [reflexivity|].
  apply (@failed_identify_leaves_wrapper_stuck dev Tec.serial_session RuntimeError
           eq_refl eq_refl).
Defined.

(** X14.  Whatever sequence of [connect] and [close] calls led to it, a
    wrapper that holds an address holds a session, so that an access is
    let through exactly when the address is set. *)
Theorem reachable_address_needs_session st :
  tec_reachable st ->
  (Tec.address st <> None -> Tec.session st <> None)
  /\ (Tec._ensure st = Ok tt <-> Tec.address st <> None).
Proof.
  intros Hr.
  assert (Hinv : Tec.address st <> None -> Tec.session st <> None).
  { induction Hr as [|st st' _ IH Hstep].
    - simpl. congruence.
    - destruct Hstep as [dev st|dev st].
      + unfold Tec.connect. destruct (Tec.session st) eqn:Es.
        * simpl. intros _. congruence.
        * destruct (Tec.open_port dev); [|simpl; rewrite Es; exact IH].
          destruct (Tec.identify dev); simpl; congruence.
      + unfold Tec.close. destruct (Tec.session st) eqn:Es.
        * simpl. congruence.
        * simpl. rewrite Es. exact IH. }
  split; [exact Hinv|].
  unfold Tec._ensure. split.
  - destruct (Tec.session st), (Tec.address st); congruence.
  - intros Ha. specialize (Hinv Ha).
    destruct (Tec.session st), (Tec.address st); congruence.
Qed.

Lemma reachable_address_needs_session_witness :
  let dev := {| Tec.open_port := Ok Tec.serial_session;
                Tec.identify := Ok 2%Z;
                Tec.stop := Raise RuntimeError |} in
  let st := fst (Tec.connect dev (fst (Tec.close dev (fst (Tec.connect dev Tec.disconnected))))) in
  tec_reachable st /\ Tec.address st = Some 2%Z /\ Tec._ensure st = Ok tt.
Proof.
  intros dev st.
  assert (Hr : tec_reachable st).
  { eapply reach_step; [|apply step_connect].
    eapply reach_step; [|apply step_close].
    eapply reach_step; [apply reach_init | apply step_connect]. }
  split; [exact Hr|]. split; [reflexivity|].
  apply (proj2 (@reachable_address_needs_session st Hr)). discriminate.
Defined.

Section WaitUntilStable.

Variable st : Tec.TEC1092.
Variable now : nat -> float.
Variable temperature : nat -> result float.
Variables target deadline tolerance poll : float.
Variable sleep : float -> result unit.
Hypothesis connected : Tec._ensure st = Ok tt.

Local Abbreviation poll_until fuel i :=
  (Tec.poll_until fuel st now sleep temperature target deadline tolerance poll i).

Lemma read_connected reply : Tec.read_temperature st reply = reply.
Proof.
  unfold Tec.read_temperature, Tec._get. rewrite connected. reflexivity.
Qed.

Lemma poll_until_true fuel : sleep poll = Ok tt -> forall i,
  poll_until fuel i = Some (Ok true) <->
  exists k, k < fuel
    /\ (forall j, j < k -> (now (S (i + j)) <? deadline)%float = true
                           /\ read_outside temperature target tolerance (i + j))
    /\ (now (S (i + k)) <? deadline)%float = true
    /\ read_inside temperature target tolerance (i + k).
Proof.
  intros Hsleep. induction fuel as [|fuel IH]; intros i.
  - simpl. split; [discriminate | intros (k & Hk & _); lia].
  - cbn [Tec.poll_until]. rewrite read_connected. split.
    + destruct (now (S i) <? deadline)%float eqn:Ed; [|discriminate].
      destruct (temperature i) as [T|e] eqn:Et; [|discriminate].
      destruct (Tec.within_tolerance target tolerance T) eqn:Ew.
      * intros _. exists 0. rewrite Nat.add_0_r. repeat split; try lia; try exact Ed.
        exists T. split; [exact Et | exact Ew].
      * rewrite Hsleep. intros H. apply IH in H. destruct H as (k & Hk & Hbefore & Hd & Hin).
        exists (S k). split; [lia|]. split; [|split].
        -- intros j Hj. destruct j as [|j].
           ++ rewrite Nat.add_0_r. split; [exact Ed|]. exists T. split; [exact Et | exact Ew].
           ++ replace (i + S j) with (S i + j) by lia. apply Hbefore. lia.
        -- replace (i + S k) with (S i + k) by lia. exact Hd.
        -- replace (i + S k) with (S i + k) by lia. exact Hin.
    + intros (k & Hk & Hbefore & Hd & Hin). destruct k as [|k].
      * rewrite Nat.add_0_r in Hd, Hin. rewrite Hd.
        destruct Hin as (T & Et & Ew). rewrite Et, Ew. reflexivity.
      * destruct (Hbefore 0) as (Hd0 & T & Et & Ew); [lia|].
        rewrite Nat.add_0_r in Hd0, Et. rewrite Hd0, Et, Ew, Hsleep.
        apply IH. exists k. split; [lia|]. split; [|split].
        -- intros j Hj. replace (S i + j) with (i + S j) by lia. apply Hbefore. lia.
        -- replace (S i + k) with (i + S k) by lia. exact Hd.
        -- replace (S i + k) with (i + S k) by lia. exact Hin.
Qed.

Lemma poll_until_false fuel : sleep poll = Ok tt -> forall i,
  poll_until fuel i = Some (Ok false) <->
  exists k, k < fuel
    /\ (forall j, j < k -> (now (S (i + j)) <? deadline)%float = true
                           /\ read_outside temperature target tolerance (i + j))
    /\ (now (S (i + k)) <? deadline)%float = false.
Proof.
  intros Hsleep. induction fuel as [|fuel IH]; intros i.
  - simpl. split; [discriminate | intros (k & Hk & _); lia].
  - cbn [Tec.poll_until]. rewrite read_connected. split.
    + destruct (now (S i) <? deadline)%float eqn:Ed.
      * destruct (temperature i) as [T|e] eqn:Et; [|discriminate].
        destruct (Tec.within_tolerance target tolerance T) eqn:Ew; [discriminate|].
        rewrite Hsleep. intros H. apply IH in H. destruct H as (k & Hk & Hbefore & Hd).
        exists (S k). split; [lia|]. split.
        -- intros j Hj. destruct j as [|j].
           ++ rewrite Nat.add_0_r. split; [exact Ed|]. exists T. split; [exact Et | exact Ew].
           ++ replace (i + S j) with (S i + j) by lia. apply Hbefore. lia.
        -- replace (i + S k) with (S i + k) by lia. exact Hd.
      * intros _. exists 0. rewrite Nat.add_0_r. repeat split; try lia; exact Ed.
    + intros (k & Hk & Hbefore & Hd). destruct k as [|k].
      * rewrite Nat.add_0_r in Hd. rewrite Hd. reflexivity.
      * destruct (Hbefore 0) as (Hd0 & T & Et & Ew); [lia|].
        rewrite Nat.add_0_r in Hd0, Et. rewrite Hd0, Et, Ew, Hsleep.
        apply IH. exists k. split; [lia|]. split.
        -- intros j Hj. replace (S i + j) with (i + S j) by lia. apply Hbefore. lia.
        -- replace (S i + k) with (i + S k) by lia. exact Hd.
Qed.

Lemma poll_until_returns fuel : forall i k,
  k < fuel -> (now (S (i + k)) <? deadline)%float = false ->
  poll_until fuel i <> None.
Proof.
  induction fuel as [|fuel IH]; intros i k Hk Hd; [lia|].
  cbn [Tec.poll_until].
  destruct (now (S i) <? deadline)%float eqn:Ed; [|discriminate].
  destruct (Tec.read_temperature st (temperature i)) as [T|e]; [|discriminate].
  destruct (Tec.within_tolerance target tolerance T); [discriminate|].
  destruct (sleep poll) as [u|e]; [|discriminate].
  destruct k as [|k]; [rewrite Nat.add_0_r in Hd; congruence|].
  apply (IH (S i) k); [lia|]. replace (S i + k) with (i + S k) by lia. exact Hd.
Qed.

End WaitUntilStable.

Lemma is_nan_true_Prim2SF f : is_nan f = true -> Prim2SF f = S754_nan.
Proof.
  intros H. destruct (Prim2SF f) eqn:E; try reflexivity;
    (assert (Hf : is_nan f = false) by (apply is_nan_Prim2SF; rewrite E; discriminate);
     congruence).
Qed.

Lemma ltb_nan_r a b : is_nan b = true -> (a <? b)%float = false.
Proof.
  intros H. rewrite FloatAxioms.ltb_spec, (is_nan_true_Prim2SF _ H).
  destruct (Prim2SF a) as [s| s| |s m e]; try destruct s; reflexivity.
Qed.

Lemma add_nan_r a b : is_nan b = true -> is_nan (a + b)%float = true.
Proof.
  intros H. unfold is_nan. rewrite FloatAxioms.eqb_spec, add_spec, (is_nan_true_Prim2SF _ H).
  destruct (Prim2SF a) as [s| s| |s m e]; try destruct s; reflexivity.
Qed.

Lemma abs_sub_nan T target : is_nan T = true -> Prim2SF (abs (T - target)) = S754_nan.
Proof.
  intros H. rewrite abs_spec, sub_spec, (is_nan_true_Prim2SF _ H). reflexivity.
Qed.

(** X15.  On a connected wrapper, with a polling length that [time.sleep]
    takes, [wait_until_stable] returns [True] exactly when some reading
    is within tolerance of the setpoint while every reading before it
    came back out of tolerance and the clock, looked at before each of
    these readings, was still short of the deadline. *)
Theorem wait_until_stable_true_iff
        fuel st now sleep target temperature tolerance timeout poll :
  Tec._ensure st = Ok tt ->
  sleep poll = Ok tt ->
  (Tec.wait_until_stable fuel st now sleep (Ok target) temperature
                         tolerance timeout poll
   = Some (Ok true)
   <-> exists k, k < fuel
        /\ (forall j, j <= k -> before_deadline now timeout (S j))
        /\ (forall j, j < k -> read_outside temperature target tolerance j)
        /\ read_inside temperature target tolerance k).
Proof.
  intros Hc Hsleep. unfold Tec.wait_until_stable, Tec.read_setpoint, Tec._get.
  rewrite Hc. cbn [bind].
  rewrite (@poll_until_true st now temperature target _ tolerance poll sleep
             Hc fuel Hsleep 0).
  cbn [Nat.add].
  unfold before_deadline. split.
  - intros (k & Hk & Hbefore & Hd & Hin). exists k. repeat split; try assumption.
    + intros j Hj. destruct (Nat.eq_dec j k) as [->|Hne]; [exact Hd|].
      apply Hbefore. lia.
    + intros j Hj. apply Hbefore. exact Hj.
  - intros (k & Hk & Hd & Hout & Hin). exists k. repeat split; try assumption.
    + apply Hd. lia.
    + apply Hout. assumption.
    + apply Hd. lia.
Qed.

(** A connected wrapper, a clock that advances by one second at each
    look, a sleep that returns, and a controller that reaches a setpoint
    of 25 degrees at its third reading. *)
Lemma wait_until_stable_true_iff_witness :
  let st := {| Tec.session := Some Tec.serial_session; Tec.address := Some 2%Z |} in
  let now := fun k => Py.nearest_float (Z.of_nat k) in
  let temperature := fun k => Ok (nth k [20; 24; 25]%float 25%float) in
  exists k, k < 5
    /\ (forall j, j <= k -> before_deadline now 10%float (S j))
    /\ (forall j, j < k -> read_outside temperature 25%float 0.5%float j)
    /\ read_inside temperature 25%float 0.5%float k.
Proof.
  intros st now temperature.
  apply (proj1 (@wait_until_stable_true_iff 5 st now sleeping 25%float temperature
                  0.5%float 10%float 0.5%float eq_refl eq_refl)).
  vm_compute. reflexivity.
Defined.

(** X16.  On a connected wrapper, with a polling length that [time.sleep]
    takes, [wait_until_stable] returns [False] exactly when the clock is
    found at or past the deadline, or the deadline cannot be compared
    with, while every reading taken until then came back out of
    tolerance. *)
Theorem wait_until_stable_false_iff
        fuel st now sleep target temperature tolerance timeout poll :
  Tec._ensure st = Ok tt ->
  sleep poll = Ok tt ->
  (Tec.wait_until_stable fuel st now sleep (Ok target) temperature
                         tolerance timeout poll
   = Some (Ok false)
   <-> exists k, k < fuel
        /\ (forall j, j < k -> before_deadline now timeout (S j)
                               /\ read_outside temperature target tolerance j)
        /\ ~ before_deadline now timeout (S k)).
Proof.
  intros Hc Hsleep. unfold Tec.wait_until_stable, Tec.read_setpoint, Tec._get.
  rewrite Hc. cbn [bind].
  rewrite (@poll_until_false st now temperature target _ tolerance poll sleep
             Hc fuel Hsleep 0).
  cbn [Nat.add]. unfold before_deadline.
  split; intros (k & Hk & Hbefore & Hd); exists k;
    (split; [exact Hk|]); (split; [exact Hbefore|]).
  - rewrite Hd. discriminate.
  - apply not_true_is_false. exact Hd.
Qed.

Lemma wait_until_stable_false_iff_witness :
  let st := {| Tec.session := Some Tec.serial_session; Tec.address := Some 2%Z |} in
  let now := fun k => Py.nearest_float (Z.of_nat k) in
  let temperature := fun k : nat => Ok 20%float in
  exists k, k < 5
    /\ (forall j, j < k -> before_deadline now 3%float (S j)
                           /\ read_outside temperature 25%float 0.5%float j)
    /\ ~ before_deadline now 3%float (S k).
Proof.
  intros st now temperature.
  apply (proj1 (@wait_until_stable_false_iff 5 st now sleeping 25%float temperature
                  0.5%float 3%float 0.5%float eq_refl eq_refl)).
  vm_compute. reflexivity.
Defined.

(** X17.  [wait_until_stable] returns, with a verdict or with the
    exception of a reading or of a sleep, once the clock is found at or
    past the deadline: a run that looks at the clock [k + 1] times needs
    no more than [k + 1] turns of the loop. *)
Theorem wait_until_stable_returns
        fuel k st now sleep setpoint temperature tolerance timeout poll :
  k < fuel -> ~ before_deadline now timeout (S k) ->
  Tec.wait_until_stable fuel st now sleep setpoint temperature tolerance timeout poll
  <> None.
Proof.
  intros Hk Hd. unfold Tec.wait_until_stable.
  destruct (Tec.read_setpoint st setpoint) as [target|e]; [|discriminate].
  apply (@poll_until_returns st now temperature target _ tolerance poll sleep fuel 0 k Hk).
  apply not_true_is_false. exact Hd.
Qed.

Lemma wait_until_stable_returns_witness :
  let st := {| Tec.session := Some Tec.serial_session; Tec.address := Some 2%Z |} in
  let now := fun k => Py.nearest_float (Z.of_nat k) in
  Tec.wait_until_stable 4 st now sleeping (Ok 25%float) (fun _ => Ok 20%float)
    0.5%float 3%float 0.5%float <> None.
Proof.
  intros st now.
  apply (@wait_until_stable_returns 4 3 st now sleeping (Ok 25%float)
           (fun _ => Ok 20%float) 0.5%float 3%float 0.5%float).
  - lia.
  - unfold before_deadline. vm_compute. discriminate.
Defined.

(** X18.  Without a usable deadline there is no waiting: when the timeout
    is NaN, [wait_until_stable] on a connected wrapper returns [False] at
    its first look at the clock, whatever the controller would have
    answered; and a wrapper that is not connected raises [RuntimeError]
    before the clock is looked at. *)
Theorem wait_until_stable_without_polling
        fuel st now sleep setpoint temperature tolerance timeout poll :
  (Tec._ensure st = Raise RuntimeError ->
   Tec.wait_until_stable fuel st now sleep setpoint temperature tolerance timeout poll
   = Some (Raise RuntimeError))
  /\ (forall target, Tec._ensure st = Ok tt -> is_nan timeout = true ->
      Tec.wait_until_stable (S fuel) st now sleep (Ok target) temperature
                            tolerance timeout poll
      = Some (Ok false)).
Proof.
  unfold Tec.wait_until_stable, Tec.read_setpoint, Tec._get. split.
  - intros He. rewrite He. reflexivity.
  - intros target Hc Hn. rewrite Hc. cbn [bind Tec.poll_until].
    rewrite ltb_nan_r by (apply add_nan_r; exact Hn). reflexivity.
Qed.

(** X19.  A NaN reading is never within tolerance for
    [wait_until_stable], while [set_and_wait] does not hold it out of
    tolerance: the first goes on polling on it, the second counts it
    toward the three readings that end the wait. *)
Theorem nan_reading_within_and_out target tolerance T :
  is_nan T = true ->
  Tec.within_tolerance target tolerance T = false
  /\ out_of_tolerance target tolerance T = false.
Proof.
  intros Hn. unfold Tec.within_tolerance, out_of_tolerance.
  rewrite FloatAxioms.leb_spec, FloatAxioms.ltb_spec, (@abs_sub_nan T target Hn).
  split; [reflexivity|].
  destruct (Prim2SF tolerance) as [s| s| |s m e]; try destruct s; reflexivity.
Qed.

Lemma nan_reading_within_and_out_witness :
  Tec.within_tolerance 25%float 0.5%float nan = false
  /\ out_of_tolerance 25%float 0.5%float nan = false.
Proof. apply (@nan_reading_within_and_out 25%float 0.5%float nan). reflexivity. Defined.

(** ** Properties of the connection to the oscilloscope *)

Lemma check_channels_invalid chans s :
  (exists c, In c chans /\ (c <= 0)%Z) ->
  exists c, In c chans /\ (c <= 0)%Z
            /\ Scope.check_channels chans s = (s, inr (Scope.InvalidChannel c)).
Proof.
  induction chans as [|chan rest IH]; intros (c & Hin & Hc).
  - destruct Hin.
  - cbn [Scope.check_channels]. destruct (Z.leb_spec chan 0) as [Hle|Hgt].
    + exists chan. split; [left; reflexivity|]. split; [exact Hle | reflexivity].
    + destruct Hin as [->|Hin]; [lia|].
      destruct IH as (c' & Hin' & Hc' & E); [exists c; split; assumption|].
      exists c'. split; [right; exact Hin'|]. split; [exact Hc' | exact E].
Qed.

Lemma check_channels_valid chans s :
  Forall (fun c => (0 < c)%Z) chans ->
  Scope.check_channels chans s = (s, inl tt).
Proof.
  induction 1 as [|chan rest Hc _ IH]; cbn [Scope.check_channels]; [reflexivity|].
  destruct (Z.leb_spec chan 0); [lia | exact IH].
Qed.

Lemma and_then_raises {A B : Type} (m : Scope.method A) (k : A -> Scope.method B) :
  (forall a, always_raises (k a)) -> always_raises (Scope.and_then m k).
Proof.
  intros Hk s. unfold Scope.and_then. destruct (m s) as [s' [a|f]].
  - apply Hk.
  - exists f. reflexivity.
Qed.

Lemma and_then_raises_left {A B : Type} (m : Scope.method A) (k : A -> Scope.method B) :
  always_raises m -> always_raises (Scope.and_then m k).
Proof.
  intros Hm s. unfold Scope.and_then. destruct (Hm s) as (f & Hf).
  destruct (m s) as [s' [a|f']]; simpl in Hf; [discriminate|].
  exists f'. reflexivity.
Qed.

Lemma and_then_keeps {A B : Type} (m : Scope.method A) (k : A -> Scope.method B) :
  keeps_pending m -> (forall a, keeps_pending (k a)) ->
  keeps_pending (Scope.and_then m k).
Proof.
  intros Hm Hk s Hs. unfold Scope.and_then. specialize (Hm s Hs).
  destruct (m s) as [s' [a|f]]; simpl in Hm.
  - apply Hk. exact Hm.
  - exact Hm.
Qed.

Lemma and_then_keeps_left {A B : Type} (m : Scope.method A) (k : A -> Scope.method B) :
  keeps_pending m -> always_raises m -> keeps_pending (Scope.and_then m k).
Proof.
  intros Hm Hr s Hs. unfold Scope.and_then. specialize (Hm s Hs).
  destruct (Hr s) as (f & Hf).
  destruct (m s) as [s' [a|f']]; simpl in Hf; [discriminate | exact Hm].
Qed.

Lemma set_nchan_keeps n : keeps_pending (Scope.set_nchan n).
Proof. intros s Hs. exact Hs. Qed.

Lemma set_memory_keeps m : keeps_pending (Scope.set_memory m).
Proof. intros s Hs. exact Hs. Qed.

Lemma write_keeps io cmd : keeps_pending (Scope.write io cmd).
Proof.
  intros s [Hc (r & Hr & Ho)]. unfold Scope.write. rewrite Hr.
  destruct (Scope.on_write io (Scope.sent r) cmd).
  - split; [exact Hc|]. eexists. split; [reflexivity | exact Ho].
  - split; [exact Hc|]. exists r. split; assumption.
Qed.

Lemma query_into_keeps io a cmd : keeps_pending (Scope.query_into io a cmd).
Proof.
  intros s [Hc (r & Hr & Ho)]. unfold Scope.query_into. rewrite Hr.
  destruct (Scope.on_query io (Scope.sent r) cmd).
  - split; [exact Hc|]. eexists. split; [reflexivity | exact Ho].
  - split; [exact Hc|]. exists r. split; assumption.
Qed.

Lemma read_scales_keeps io : keeps_pending (Scope.read_scales io).
Proof.
  unfold Scope.read_scales.
  repeat (apply and_then_keeps; [apply query_into_keeps | intros _]).
  apply query_into_keeps.
Qed.

Lemma check_channels_state chans s : fst (Scope.check_channels chans s) = s.
Proof.
  induction chans as [|chan rest IH]; cbn [Scope.check_channels]; [reflexivity|].
  destruct (chan <=? 0)%Z; [reflexivity | exact IH].
Qed.

Lemma change_channels_raises io chans :
  (exists c, In c chans /\ (c <= 0)%Z) ->
  always_raises (Scope.change_channels io chans)
  /\ keeps_pending (Scope.change_channels io chans).
Proof.
  intros Hinv.
  assert (Hr : always_raises (Scope.check_channels chans)).
  { intros s. destruct (@check_channels_invalid chans s Hinv) as (c & _ & _ & E).
    rewrite E. eexists. reflexivity. }
  assert (Hk : keeps_pending (Scope.check_channels chans)).
  { intros s Hs. rewrite check_channels_state. exact Hs. }
  unfold Scope.change_channels. split.
  - apply and_then_raises_left, Hr.
  - apply and_then_keeps_left; assumption.
Qed.

Lemma after_and_then {A B : Type} P (m : Scope.method A) Q (k : A -> Scope.method B) R :
  after P m (returned Q) -> (forall a, after (Q a) (k a) R) ->
  after P (Scope.and_then m k) R.
Proof.
  intros Hm Hk s Hs. unfold Scope.and_then.
  destruct (Hm s Hs) as (a & Ha & HQ).
  destruct (m s) as [s' [a'|f]]; simpl in Ha, HQ; [|discriminate].
  injection Ha as ->. apply Hk. exact HQ.
Qed.

Lemma write_answering reply cmd l n m b done :
  after (state_is l n m b done) (Scope.write (answering reply) cmd)
        (returned (fun _ => state_is (l ++ [cmd]) n m b done)).
Proof.
  intros s (Hs & Hn & Hm & Hb & Hd). unfold Scope.write. rewrite Hs.
  exists tt. split; [reflexivity|]. repeat split; assumption.
Qed.

Lemma query_answering reply a cmd l n m b done :
  after (state_is l n m b done) (Scope.query_into (answering reply) a cmd)
        (returned (fun _ => state_is (l ++ [cmd]) n m b (a :: done))).
Proof.
  intros s (Hs & Hn & Hm & Hb & Hd). unfold Scope.query_into. rewrite Hs.
  exists tt. split; [reflexivity|]. repeat split; try assumption.
  constructor.
  - cbn. destruct a; discriminate.
  - apply (Forall_impl _ (P := fun a' => Scope.scale s a' <> None)); [|exact Hd].
    intros a' Ha'. cbn. destruct (Scope.attr_eqb a a'); [discriminate | exact Ha'].
Qed.

Lemma read_scales_answering reply l n m b done :
  after (state_is l n m b done) (Scope.read_scales (answering reply))
        (returned (fun _ =>
           state_is (l ++ [Scope.WFMPRE_YMULT; Scope.WFMPRE_YZERO; Scope.WFMPRE_YOFF;
                           Scope.WFMPRE_XINCR; Scope.HORIZONTAL_MAIN_SCALE;
                           Scope.HORIZONTAL_MAIN_POSITION; Scope.HORIZONTAL_RECORDLENGTH])
                    n m b
                    (Scope.xlength :: Scope.xoffset :: Scope.xscale :: Scope.xincr
                     :: Scope.yoff :: Scope.yzero :: Scope.ymult :: done))).
Proof.
  unfold Scope.read_scales.
  do 6 (eapply after_and_then; [apply query_answering | intros []; cbv beta]).
  intros s Hs. destruct (@query_answering reply Scope.xlength Scope.HORIZONTAL_RECORDLENGTH
                           _ _ _ _ _ s Hs) as (u & Hu & HQ).
  exists u. split; [exact Hu|]. rewrite <- !app_assoc in HQ. exact HQ.
Qed.

Lemma set_nchan_after n' l n m b done :
  after (state_is l n m b done) (Scope.set_nchan n')
        (returned (fun _ => state_is l n' m b done)).
Proof.
  intros s (Hs & Hn & Hm & Hb & Hd). exists tt. split; [reflexivity|].
  repeat split; assumption.
Qed.

Lemma check_channels_after chans P :
  Forall (fun c => (0 < c)%Z) chans ->
  after P (Scope.check_channels chans) (returned (fun _ => P)).
Proof.
  intros Hv s Hs. rewrite (@check_channels_valid chans s Hv).
  exists tt. split; [reflexivity | exact Hs].
Qed.

Lemma write_stop_answering reply l n m b done :
  after (state_is l n m b done)
        (Scope.and_then (fun s => (s, inl (Scope._memory s)))
                        (fun m0 => Scope.write (answering reply) (Scope.DATA_STOP m0)))
        (returned (fun _ => state_is (l ++ [Scope.DATA_STOP m]) n m b done)).
Proof.
  intros s Hs. unfold Scope.and_then.
  assert (Hm : Scope._memory s = m) by apply Hs. rewrite Hm.
  apply (@write_answering reply (Scope.DATA_STOP m) l n m b done s Hs).
Qed.

(** [connect] up to the call of [change_channels], on an instrument that
    takes every command. *)
Lemma connect_answering reply chans memory R s :
  after (state_is (configuration chans memory) (length chans) memory
                  (Scope._is_connected s)
                  [Scope.xlength; Scope.xoffset; Scope.xscale; Scope.xincr;
                   Scope.yoff; Scope.yzero; Scope.ymult])
        (Scope.and_then (Scope.change_channels (answering reply) chans)
                        (fun _ => Scope.set_is_connected true)) R ->
  R (Scope.connect (answering reply) (Ok tt) chans memory s).
Proof.
  intros Hk. unfold Scope.connect.
  unfold Scope.and_then at 1 2 3. cbn [Scope.set_scope Scope.set_nchan Scope.set_memory].
  match goal with |- R (?m ?s0) =>
    apply (fun H : after (state_is [] (length chans) memory (Scope._is_connected s) []) m R
           => H s0)
  end; [|repeat split; constructor].
  do 3 (eapply after_and_then; [apply write_answering | intros []; cbv beta]).
  eapply after_and_then; [apply read_scales_answering | intros []; cbv beta].
  eapply after_and_then; [apply write_answering | intros []; cbv beta].
  eapply after_and_then; [apply write_stop_answering | intros []; cbv beta].
  exact Hk.
Qed.

(** X20.  [connect], called with an address on an object that is not
    marked connected, which is how [__init__] leaves it, checks the
    channels last.  With a channel that is not positive in the list, such
    a [connect] whose resource opens always raises, from the instrument
    or from the check, and leaves the object not marked connected while
    it holds the open resource, so that [disconnect] returns without
    closing it.  On an instrument that takes every command the exception
    is the one of the check, and by then the instrument has been sent the
    whole configuration, the rejected list of channels first. *)
Theorem connect_checks_channels_last io chans memory s :
  Scope._is_connected s = false ->
  (exists c, In c chans /\ (c <= 0)%Z) ->
  let out := Scope.connect io (Ok tt) chans memory s in
  (exists f, snd out = inr f)
  /\ Scope._is_connected (fst out) = false
  /\ holds_open_resource (fst out)
  /\ Scope.disconnect (fst out) = (fst out, inl tt)
  /\ (forall reply, io = answering reply ->
      exists c r, In c chans /\ (c <= 0)%Z
        /\ snd out = inr (Scope.InvalidChannel c)
        /\ Scope._scope (fst out) = Some r
        /\ Scope.sent r = configuration chans memory).
Proof.
  intros Hc Hinv out.
  destruct (@change_channels_raises io chans Hinv) as [Hraise Hkeep].
  assert (Hpend : pending (fst out)).
  { subst out. unfold Scope.connect.
    unfold Scope.and_then at 1. cbn [Scope.set_scope].
    match goal with |- pending (fst (?m ?s0)) => apply (fun H : keeps_pending m => H s0) end;
      [|split; [exact Hc | eexists; split; reflexivity]].
    apply and_then_keeps; [apply set_nchan_keeps | intros _].
    apply and_then_keeps; [apply set_memory_keeps | intros _].
    do 3 (apply and_then_keeps; [apply write_keeps | intros _]).
    apply and_then_keeps; [apply read_scales_keeps | intros _].
    apply and_then_keeps; [apply write_keeps | intros _].
    apply and_then_keeps;
      [apply and_then_keeps; [intros s0 Hs0; exact Hs0 | intros m0; apply write_keeps]
      | intros _].
    apply and_then_keeps_left; assumption. }
  assert (Hfail : exists f, snd out = inr f).
  { subst out. unfold Scope.connect.
    do 9 (apply and_then_raises; intros _).
    apply and_then_raises_left. exact Hraise. }
  destruct Hpend as [Hnc Hopen].
  split; [exact Hfail|]. split; [exact Hnc|]. split; [exact Hopen|]. split.
  - unfold Scope.disconnect. rewrite Hnc. reflexivity.
  - intros reply ->. subst out. apply connect_answering.
    intros s0 (Hs0 & _). unfold Scope.and_then, Scope.change_channels.
    destruct (@check_channels_invalid chans s0 Hinv) as (c & Hin & Hle & E).
    unfold Scope.and_then. rewrite E. cbn [fst snd].
    exists c. eexists. split; [exact Hin|]. split; [exact Hle|].
    split; [reflexivity|]. split; [exact Hs0 | reflexivity].
Qed.

Lemma connect_checks_channels_last_witness :
  let out := Scope.connect (answering (fun _ _ => 1%float)) (Ok tt) [1; 0]%Z 1000%Z
               (Scope.init [1; 0]%Z 1000%Z) in
  snd out = inr (Scope.InvalidChannel 0)
  /\ holds_open_resource (fst out)
  /\ Scope.disconnect (fst out) = (fst out, inl tt).
Proof.
  intros out.
  destruct (@connect_checks_channels_last (answering (fun _ _ => 1%float))
              [1; 0]%Z 1000%Z (Scope.init [1; 0]%Z 1000%Z))
    as (_ & _ & Hopen & Hoff & _).
  - reflexivity.
  - exists 0%Z. split; [right; left; reflexivity | lia].
  - split; [reflexivity|]. split; [exact Hopen | exact Hoff].
Defined.

(** X21.  With positive channels and an instrument that takes every
    command, [connect] returns with the object marked connected, the
    number of channels and the record length stored, every scale
    attribute set, and the instrument sent the configuration followed by
    the channel selection, so that the data source and the seven scale
    queries go out twice.  [disconnect] then closes the resource and
    unmarks the object, and a second [disconnect] does nothing. *)
Theorem connect_then_disconnect reply chans memory s :
  Forall (fun c => (0 < c)%Z) chans ->
  let out := Scope.connect (answering reply) (Ok tt) chans memory s in
  let off := Scope.disconnect (fst out) in
  snd out = inl tt
  /\ Scope._is_connected (fst out) = true
  /\ Scope._nchan (fst out) = length chans
  /\ Scope._memory (fst out) = memory
  /\ (forall a, Scope.scale (fst out) a <> None)
  /\ (exists r, Scope._scope (fst out) = Some r /\ Scope.is_open r = true
                /\ Scope.sent r = configuration chans memory ++ channel_selection chans)
  /\ snd off = inl tt
  /\ Scope._is_connected (fst off) = false
  /\ (exists r, Scope._scope (fst off) = Some r /\ Scope.is_open r = false)
  /\ Scope.disconnect (fst off) = (fst off, inl tt).
Proof.
  intros Hv out off. subst off out. apply connect_answering.
  eapply after_and_then
    with (Q := fun _ => state_is (configuration chans memory ++ channel_selection chans)
                          (length chans) memory (Scope._is_connected s)
                          [Scope.xlength; Scope.xoffset; Scope.xscale; Scope.xincr;
                           Scope.yoff; Scope.yzero; Scope.ymult;
                           Scope.xlength; Scope.xoffset; Scope.xscale; Scope.xincr;
                           Scope.yoff; Scope.yzero; Scope.ymult]).
  - unfold Scope.change_channels.
    eapply after_and_then; [apply check_channels_after; exact Hv | intros []; cbv beta].
    eapply after_and_then; [apply set_nchan_after | intros []; cbv beta].
    eapply after_and_then; [apply write_answering | intros []; cbv beta].
    intros s0 Hs0.
    exact (@read_scales_answering reply _ _ _ _ _ s0 Hs0).
  - intros [] s0 (Hs0 & Hn & Hm & _ & Hd). cbn [Scope.set_is_connected fst snd].
    unfold Scope.disconnect. cbn [Scope._is_connected Scope._scope].
    rewrite Hs0.
    cbn [Scope.and_then Scope.set_scope Scope.set_is_connected fst snd
         Scope._is_connected Scope._scope Scope._nchan Scope._memory Scope.scale
         Scope.is_open Scope.sent].
    split; [reflexivity|]. split; [reflexivity|]. split; [exact Hn|].
    split; [exact Hm|]. split.
    { intros a. rewrite Forall_forall in Hd. apply Hd. destruct a; simpl; tauto. }
    split; [eexists; split; [reflexivity | split; reflexivity]|].
    split; [reflexivity|]. split; [reflexivity|].
    split; [eexists; split; reflexivity | reflexivity].
Qed.

Lemma connect_then_disconnect_witness :
  let out := Scope.connect (answering (fun _ _ => 1%float)) (Ok tt) [1; 2]%Z 1000%Z
               (Scope.init [1; 2]%Z 1000%Z) in
  Scope._is_connected (fst out) = true
  /\ Scope._nchan (fst out) = 2
  /\ Scope._is_connected (fst (Scope.disconnect (fst out))) = false.
Proof.
  intros out.
  destruct (@connect_then_disconnect (fun _ _ => 1%float) [1; 2]%Z 1000%Z
              (Scope.init [1; 2]%Z 1000%Z))
    as (_ & Hc & Hn & _ & _ & _ & _ & Hd & _).
  - repeat constructor.
  - split; [exact Hc|]. split; [exact Hn | exact Hd].
Defined.

(** X22.  A resource that cannot be opened is no error for [connect]: the
    call returns and leaves the object as [__init__] made it, not marked
    connected, so that [disconnect] does nothing.  The failure comes out
    at the next command: [change_channels] with positive channels stores
    their number and then raises on the missing [_scope]. *)
Theorem connect_swallows_open_failure io e chans memory chans' :
  let out := Scope.connect io (Raise e) chans memory (Scope.init chans memory) in
  out = (Scope.init chans memory, inl tt)
  /\ Scope.disconnect (fst out) = (fst out, inl tt)
  /\ (Forall (fun c => (0 < c)%Z) chans' ->
      snd (Scope.change_channels io chans' (fst out)) = inr Scope.AttributeError
      /\ Scope._nchan (fst (Scope.change_channels io chans' (fst out))) = length chans').
Proof.
  intros out. subst out. cbn [Scope.connect Scope.ret fst].
  split; [reflexivity|]. split; [reflexivity|].
  intros Hv. unfold Scope.change_channels, Scope.and_then.
  rewrite (@check_channels_valid chans' _ Hv). split; reflexivity.
Qed.
